(** * ITLMS: the traffic-light arbitration core of [ITLMS.py]

    A shallow embedding of the class [TrafficLightSystem] (the arbiter and the
    overdue monitor) together with the one field of [VideoProcessor] it reads,
    [road_data].  Python dictionaries keep insertion order and the code scans
    them in that order, so they are association lists here; exceptions and the
    wall clock are effects of a small monad. *)

From Stdlib Require Import ZArith List String Bool Lia Arith.
From Stdlib Require QArith.
Import ListNotations.
Open Scope string_scope.
Open Scope list_scope.
Open Scope Z_scope.

#[local] Arguments Z.geb : simpl never.
#[local] Arguments Z.gtb : simpl never.
#[local] Arguments Z.sub : simpl never.
#[local] Arguments Z.add : simpl never.

(** ** Insertion-ordered dictionaries *)

Module Dict.

Definition dict (V : Type) : Type := list (string * V).

Definition keys {V} (d : dict V) : list string := map fst d.

(** [d.get(k)], [None] when the key is absent. *)
Fixpoint get {V} (d : dict V) (k : string) : option V :=
  match d with
  | [] => None
  | (k', v) :: d' => if String.eqb k' k then Some v else get d' k
  end.

(** [d[k] = v]: an existing key keeps its place, a new key goes last. *)
Fixpoint set {V} (d : dict V) (k : string) (v : V) : dict V :=
  match d with
  | [] => [(k, v)]
  | (k', v') :: d' =>
      if String.eqb k' k then (k, v) :: d' else (k', v') :: set d' k v
  end.

(** [k in d] *)
Definition mem {V} (d : dict V) (k : string) : bool :=
  match get d k with Some _ => true | None => false end.

End Dict.
Import Dict.

(** ** Data *)

(** The per-road counters built by [process_video_frame]: the dictionary
    [road_counts] has exactly these five keys, in this order. *)
Record Counts : Type := mkCounts {
  ambulance : Z;
  firefighter : Z;
  police : Z;
  traffic : Z;
  car : Z
}.

(** [sum(road_counts[road].values())] *)
Definition sum_values (c : Counts) : Z :=
  ambulance c + firefighter c + police c + traffic c + car c.

(** A value of [road_data]: the list [[road_counts, len(track_ids)]]. *)
Record RoadDatum : Type := mkDatum {
  counts : Counts;
  n_tracks : Z
}.

(** A value of [last_open_data]: [{"time": t, "open_road": r}]. *)
Record Entry : Type := mkEntry {
  time : Z;
  open_road : string
}.

(** The state of the program as far as the arbiter can see or change it.
    [VideoProcessor.road_data] is one dictionary object; [get_road_data]
    hands out a reference to it, so [TrafficLightSystem.road_data] is either
    [None] or that very object.  [feed] is the object, [road_data_bound]
    tells whether the arbiter holds the reference.  [display] is the list of
    light mappings pushed to the GUI (latest first) and [reads] counts the
    calls of [time.time()] made so far. *)
Record World : Type := mkWorld {
  feed : dict RoadDatum;
  road_data_bound : bool;
  traffic_lights : dict bool;
  last_open_data : dict Entry;
  gui : bool;
  last_open_time_em : Z;
  display : list (dict bool);
  reads : nat
}.

Definition road_data (w : World) : option (dict RoadDatum) :=
  if road_data_bound w then Some (feed w) else None.

Definition with_feed (w : World) (f : dict RoadDatum) : World :=
  mkWorld f (road_data_bound w) (traffic_lights w) (last_open_data w)
          (gui w) (last_open_time_em w) (display w) (reads w).

Definition with_road_data_bound (w : World) (b : bool) : World :=
  mkWorld (feed w) b (traffic_lights w) (last_open_data w)
          (gui w) (last_open_time_em w) (display w) (reads w).

Definition with_traffic_lights (w : World) (l : dict bool) : World :=
  mkWorld (feed w) (road_data_bound w) l (last_open_data w)
          (gui w) (last_open_time_em w) (display w) (reads w).

Definition with_last_open_data (w : World) (d : dict Entry) : World :=
  mkWorld (feed w) (road_data_bound w) (traffic_lights w) d
          (gui w) (last_open_time_em w) (display w) (reads w).

Definition with_last_open_time_em (w : World) (t : Z) : World :=
  mkWorld (feed w) (road_data_bound w) (traffic_lights w) (last_open_data w)
          (gui w) t (display w) (reads w).

Definition with_display (w : World) (d : list (dict bool)) : World :=
  mkWorld (feed w) (road_data_bound w) (traffic_lights w) (last_open_data w)
          (gui w) (last_open_time_em w) d (reads w).

Definition with_reads (w : World) (n : nat) : World :=
  mkWorld (feed w) (road_data_bound w) (traffic_lights w) (last_open_data w)
          (gui w) (last_open_time_em w) (display w) n.

(** ** The effect monad: state, Python exceptions, the clock *)

Inductive exn : Type := KeyError | ValueError | TypeError.

Inductive result (A : Type) : Type :=
| Val (a : A)
| Exc (e : exn).
Arguments Val {A} a.
Arguments Exc {A} e.

(** A computation returns or raises, and in both cases leaves a state: what
    was written before an exception stays written. *)
Definition M (A : Type) : Type := World -> result A * World.

Definition ret {A} (a : A) : M A := fun w => (Val a, w).

Definition bind {A B} (c : M A) (k : A -> M B) : M B :=
  fun w =>
    match c w with
    | (Val a, w') => k a w'
    | (Exc e, w') => (Exc e, w')
    end.

Definition raise {A} (e : exn) : M A := fun w => (Exc e, w).

(** [try: body / except KeyError: handler] *)
Definition try_except_KeyError (body handler : M unit) : M unit :=
  fun w =>
    match body w with
    | (Exc KeyError, w') => handler w'
    | r => r
    end.

Definition gets {A} (f : World -> A) : M A := fun w => (Val (f w), w).

Definition modify (f : World -> World) : M unit := fun w => (Val tt, f w).

Declare Scope py_scope.
Delimit Scope py_scope with py.
Notation "x <- c ;; k" := (bind c (fun x => k))
  (at level 61, c at next level, right associativity) : py_scope.
Notation "c ;; k" := (bind c (fun _ => k))
  (at level 61, right associativity) : py_scope.
Open Scope py_scope.

(** [d[k]] on a dictionary read from the state; a missing key raises. *)
Definition subscript {V} (d : World -> dict V) (k : string) : M V :=
  fun w =>
    match get (d w) k with
    | Some v => (Val v, w)
    | None => (Exc KeyError, w)
    end.

(** Short-circuit [and] of two conditions with effects. *)
Definition and_then (a b : M bool) : M bool :=
  x <- a ;; if x then b else ret false.

(** [for x in xs: body(x)] without [break]. *)
Fixpoint for_each {A} (xs : list A) (body : A -> M unit) : M unit :=
  match xs with
  | [] => ret tt
  | x :: xs' => body x ;; for_each xs' body
  end.

(** [[x for x in xs if cond(x)]] *)
Fixpoint filter_comprehension {A} (xs : list A) (cond : A -> M bool)
  : M (list A) :=
  match xs with
  | [] => ret []
  | x :: xs' =>
      b <- cond x ;;
      rest <- filter_comprehension xs' cond ;;
      ret (if b then x :: rest else rest)
  end.

(** [[f(x) for x in xs]] *)
Fixpoint map_comprehension {A B} (xs : list A) (f : A -> M B) : M (list B) :=
  match xs with
  | [] => ret []
  | x :: xs' =>
      y <- f x ;;
      rest <- map_comprehension xs' f ;;
      ret (y :: rest)
  end.

(** Python's [max(xs, key=...)] keeps the first element whose key is
    greatest: a later element replaces the current best only when its key is
    strictly greater.  Elements come paired with their keys. *)
Fixpoint max_from {A} (best : A * Z) (xs : list (A * Z)) : A :=
  match xs with
  | [] => fst best
  | x :: xs' =>
      if snd x >? snd best then max_from x xs' else max_from best xs'
  end.

Definition py_max {A} (xs : list (A * Z)) : M A :=
  match xs with
  | [] => raise ValueError
  | x :: xs' => ret (max_from x xs')
  end.

(** ** The arbiter *)

Section Arbiter.

(** [clock n] is the value returned by the [n]-th call of [time.time()]
    since the program started, in the time unit of the thresholds. *)
Variable clock : nat -> Z.

(** [time.time()] *)
Definition time_time : M Z :=
  fun w => (Val (clock (reads w)), with_reads w (S (reads w))).

(** [if self.gui: self.gui.update_traffic_display(self.traffic_lights)] *)
Definition update_traffic_display : M unit :=
  modify (fun w =>
    if gui w then with_display w (traffic_lights w :: display w) else w).

(** [self.traffic_lights[road] = state] *)
Definition assign_light (road : string) (state : bool) : M unit :=
  modify (fun w => with_traffic_lights w (set (traffic_lights w) road state)).

(** [self.last_open_data[road] = {"time": t, "open_road": road}] *)
Definition assign_entry (road : string) (t : Z) : M unit :=
  modify (fun w =>
    with_last_open_data w (set (last_open_data w) road (mkEntry t road))).

(** [lock_traffic] and [unlock_traffic]; what they print is left out. *)
Definition lock_traffic (road : string) : M unit :=
  state <- subscript traffic_lights road ;;
  if negb state then ret tt else assign_light road false.

Definition unlock_traffic (road : string) : M unit :=
  state <- subscript traffic_lights road ;;
  if state then ret tt else assign_light road true.

(** The loop shared by the three transitions:
    [for prev_road in self.last_open_data.keys():
       if self.last_open_data[prev_road]["open_road"] != road:
         self.lock_traffic(prev_road)] *)
Definition lock_previous (road prev_road : string) : M unit :=
  e <- subscript last_open_data prev_road ;;
  if negb (String.eqb (open_road e) road)
  then lock_traffic prev_road
  else ret tt.

Definition lock_others (road : string) : M unit :=
  ks <- gets (fun w => keys (last_open_data w)) ;;
  for_each ks (lock_previous road).

(** [self.last_open_data.get(road, {}).get("time", 0)] *)
Definition last_time_or_0 (w : World) (road : string) : Z :=
  match get (last_open_data w) road with
  | Some e => time e
  | None => 0
  end.

(** The condition of the [else] branch of [update_traffic_with_lock], with
    Python's left-to-right, short-circuit evaluation. *)
Definition density_guard (road : string) (has_emergency_vehicle : bool)
  : M bool :=
  and_then (gets (fun w => mem (traffic_lights w) road))
 (and_then (state <- subscript traffic_lights road ;;
            ret (Bool.eqb state false))
 (and_then (now <- time_time ;;
            last <- gets (fun w => last_time_or_0 w road) ;;
            ret (now - last >=? 10))
 (and_then (ret (Bool.eqb has_emergency_vehicle false))
           (now <- time_time ;;
            em <- gets last_open_time_em ;;
            ret (now - em >=? 10))))).

Definition emergency_guard (road : string) (has_emergency_vehicle : bool)
  : M bool :=
  and_then (ret has_emergency_vehicle)
           (state <- subscript traffic_lights road ;;
            ret (Bool.eqb state false)).

Definition emergency_transition (road : string) : M unit :=
  lock_others road ;;
  unlock_traffic road ;;
  now <- time_time ;;
  assign_entry road now ;;
  now' <- time_time ;;
  modify (fun w => with_last_open_time_em w now') ;;
  update_traffic_display.

Definition density_transition (road : string) : M unit :=
  lock_others road ;;
  unlock_traffic road ;;
  now <- time_time ;;
  assign_entry road now ;;
  modify (fun w => with_last_open_time_em w 0) ;;
  update_traffic_display.

Definition update_traffic_with_lock
  (road : string) (has_emergency_vehicle : bool) : M unit :=
  try_except_KeyError
    (c <- emergency_guard road has_emergency_vehicle ;;
     if c then emergency_transition road
     else
       c' <- density_guard road has_emergency_vehicle ;;
       if c' then density_transition road else ret tt)
    (now <- time_time ;; assign_entry road now).

(** [any(road_counts[r][vehicle] > 0 for r in road_counts
         for vehicle in ["ambulance", "firefighter", "police"])] *)
Definition any_emergency (road_counts : dict Counts) : bool :=
  existsb (fun rc =>
             (ambulance (snd rc) >? 0) || (firefighter (snd rc) >? 0)
             || (police (snd rc) >? 0))
          road_counts.

(** The loop of the emergency branch, which leaves at the first road that
    takes one of the three [if]/[elif] arms. *)
Fixpoint emergency_scan (has_emergency_vehicle : bool)
  (items : list (string * Counts)) : M unit :=
  match items with
  | [] => ret tt
  | (road, cnt) :: rest =>
      if ambulance cnt >? 0 then
        update_traffic_with_lock road has_emergency_vehicle
      else if firefighter cnt >? 0 then
        update_traffic_with_lock road has_emergency_vehicle
      else if police cnt >? 0 then
        update_traffic_with_lock road has_emergency_vehicle
      else emergency_scan has_emergency_vehicle rest
  end.

(** [{road: data[0] for road, data in self.road_data.items()}] *)
Definition road_counts_of (rd : dict RoadDatum) : dict Counts :=
  fold_left (fun acc kv => set acc (fst kv) (counts (snd kv))) rd [].

(** [{road: sum(road_counts[road].values()) for road in road_counts}] *)
Definition total_counts_of (road_counts : dict Counts) : dict Z :=
  fold_left (fun acc kv => set acc (fst kv) (sum_values (snd kv)))
            road_counts [].

(** [total.get(k)] as a sort key; every key scanned is present. *)
Definition total_get (total : dict Z) (k : string) : Z :=
  match get total k with Some n => n | None => 0 end.

Definition update_traffic_light : M unit :=
  rd <- gets road_data ;;
  match rd with
  | None => ret tt
  | Some rd =>
      let road_counts := road_counts_of rd in
      let has_emergency_vehicle := any_emergency road_counts in
      if has_emergency_vehicle then
        emergency_scan has_emergency_vehicle road_counts
      else
        let total_count_road_counts := total_counts_of road_counts in
        max_count_road <-
          py_max (map (fun k => (k, total_get total_count_road_counts k))
                      (keys total_count_road_counts)) ;;
        for_each (keys rd) (fun road =>
          if String.eqb road max_count_road
          then update_traffic_with_lock road false
          else ret tt)
  end.

Definition process_and_update_traffic : M unit :=
  modify (fun w => with_road_data_bound w true) ;;
  update_traffic_light.

(** [self.road_data[r][0]["car"]]: subscripting [None] is a [TypeError],
    a missing road a [KeyError]. *)
Definition car_of (r : string) : M Z :=
  rd <- gets road_data ;;
  match rd with
  | None => raise TypeError
  | Some rd =>
      match get rd r with
      | Some d => ret (car (counts d))
      | None => raise KeyError
      end
  end.

(** The condition of the list comprehension of the overdue monitor. *)
Definition eligible (r : string) : M bool :=
  and_then (now <- time_time ;;
            e <- subscript last_open_data r ;;
            ret (now - time e >=? 10))
           (n <- car_of r ;; ret (n >? 0)).

(** The body run for the first overdue road. *)
Definition open_most_cars (current_time : Z) : M unit :=
  ks <- gets (fun w => keys (last_open_data w)) ;;
  eligible_roads <- filter_comprehension ks eligible ;;
  match eligible_roads with
  | [] => ret tt
  | _ :: _ =>
      keyed <- map_comprehension eligible_roads
                 (fun r => n <- car_of r ;; ret (r, n)) ;;
      new_open_road <- py_max keyed ;;
      lock_others new_open_road ;;
      unlock_traffic new_open_road ;;
      assign_entry new_open_road current_time ;;
      update_traffic_display
  end.

(** The scan of the overdue monitor, with its [break]. *)
Fixpoint overdue_scan (current_time : Z) (roads : list string) : M unit :=
  match roads with
  | [] => ret tt
  | road :: rest =>
      e <- subscript last_open_data road ;;
      if current_time - time e >=? 120
      then open_most_cars current_time
      else overdue_scan current_time rest
  end.

Definition check_and_open_overdue_road : M unit :=
  current_time <- time_time ;;
  ks <- gets (fun w => keys (last_open_data w)) ;;
  overdue_scan current_time ks.

End Arbiter.

(** ** The program around the arbiter *)

(** [TrafficLightSystem.__init__] after [VideoProcessor.__init__]: every
    road of [video_caps] closed, nothing recorded, no snapshot. *)
Definition initial (video_caps : list string) : World :=
  mkWorld [] false
          (fold_left (fun acc road => set acc road false) video_caps [])
          [] false 0 [] 0.

(** What the event loop can do to the state.  [Ingest] is the assignment
    [self.road_data[road] = [road_counts, len(track_ids)]] of
    [process_video_frame]; [Tick] and [Sweep] are the two calls of
    [update_traffic_system], and [Tick] is also what follows every frame. *)
Inductive op : Type :=
| SetGui
| Ingest (road : string) (c : Counts) (n : Z)
| Tick
| Sweep.

Definition run_op (clock : nat -> Z) (o : op) : M unit :=
  match o with
  | SetGui =>
      modify (fun w =>
        mkWorld (feed w) (road_data_bound w) (traffic_lights w)
                (last_open_data w) true (last_open_time_em w) (display w)
                (reads w))
  | Ingest road c n =>
      modify (fun w => with_feed w (set (feed w) road (mkDatum c n)))
  | Tick => process_and_update_traffic clock
  | Sweep => check_and_open_overdue_road clock
  end.

(** Frames are only processed for roads of [video_caps]. *)
Definition admissible (w : World) (o : op) : Prop :=
  match o with
  | Ingest road _ _ => In road (keys (traffic_lights w))
  | _ => True
  end.

(** The states of a run.  A call that raises leaves its partial writes
    behind and the event loop goes on, so its state is kept as well. *)
Inductive reachable (clock : nat -> Z) (video_caps : list string)
  : World -> Prop :=
| reach_initial : reachable clock video_caps (initial video_caps)
| reach_step : forall w o,
    reachable clock video_caps w ->
    admissible w o ->
    reachable clock video_caps (snd (run_op clock o w)).

(** Running a list of operations in order. *)
Fixpoint run (clock : nat -> Z) (os : list op) (w : World) : World :=
  match os with
  | [] => w
  | o :: os' => run clock os' (snd (run_op clock o w))
  end.

(** The roads whose light is open. *)
Definition open_roads (w : World) : list string :=
  map fst (filter (fun kv => snd kv) (traffic_lights w)).

Definition light (w : World) (r : string) : option bool :=
  get (traffic_lights w) r.

Definition entry (w : World) (r : string) : option Entry :=
  get (last_open_data w) r.

(** ** Properties of states *)

(** Mutual exclusion, by counting and pointwise. *)
Definition at_most_one_open (w : World) : Prop :=
  (List.length (open_roads w) <= 1)%nat.

Definition exclusive (w : World) : Prop :=
  forall r1 r2, light w r1 = Some true -> light w r2 = Some true -> r1 = r2.

(** Every open road is recorded, and every record names its own key. *)
Definition open_recorded (w : World) : Prop :=
  forall r, light w r = Some true -> In r (keys (last_open_data w)).

Definition self_keyed (w : World) : Prop :=
  forall r e, entry w r = Some e -> open_road e = r.

Definition bookkeeping_inv (w : World) : Prop :=
  open_recorded w /\ self_keyed w.

Record consistent (w : World) : Prop := mkConsistent {
  lights_nodup : NoDup (keys (traffic_lights w));
  cons_recorded : open_recorded w;
  cons_self_keyed : self_keyed w;
  cons_exclusive : exclusive w
}.

(** Every recorded road is a configured road with a snapshot, and the
    arbiter holds the snapshot dictionary once anything is recorded. *)
Record known (w : World) : Prop := mkKnown {
  feed_configured : forall r, In r (keys (feed w)) ->
                              In r (keys (traffic_lights w));
  recorded_fed : forall r, In r (keys (last_open_data w)) ->
                           In r (keys (feed w));
  recorded_bound : last_open_data w <> [] -> road_data_bound w = true;
  recorded_nodup : NoDup (keys (last_open_data w));
  feed_nodup : NoDup (keys (feed w))
}.

(** What no call of the arbiter touches, and the clock only moving on. *)
Definition extends (w w' : World) : Prop :=
  feed w' = feed w /\ road_data_bound w' = road_data_bound w /\
  gui w' = gui w /\ (reads w <= reads w')%nat.

(** [w'] is [w] with some lights turned from open to closed, and perhaps
    more clock readings taken. *)
Definition same_records (w w' : World) : Prop :=
  feed w' = feed w /\ road_data_bound w' = road_data_bound w /\
  last_open_data w' = last_open_data w /\ gui w' = gui w /\
  last_open_time_em w' = last_open_time_em w /\ display w' = display w /\
  (reads w <= reads w')%nat.

Definition only_locks (w w' : World) : Prop :=
  same_records w w' /\
  keys (traffic_lights w') = keys (traffic_lights w) /\
  forall r, light w' r = light w r \/
            (light w r = Some true /\ light w' r = Some false).

(** The state after the [except KeyError] arm has written the record. *)
Definition seeded (w1 : World) (road : string) (t : Z) (n : nat) : World :=
  mkWorld (feed w1) (road_data_bound w1) (traffic_lights w1)
          (set (last_open_data w1) road (mkEntry t road))
          (gui w1) (last_open_time_em w1) (display w1) n.

(** The state after a transition to [road]: [w1] is the state once the other
    roads are locked, [t] the time written to the record, [em] the new
    [last_open_time_em] and [n] the number of clock readings so far. *)
Definition notified (w : World) : World :=
  if gui w then with_display w (traffic_lights w :: display w) else w.

Definition switched (w1 : World) (road : string) (t em : Z) (n : nat)
  : World :=
  notified (mkWorld (feed w1) (road_data_bound w1)
                    (set (traffic_lights w1) road true)
                    (set (last_open_data w1) road (mkEntry t road))
                    (gui w1) em (display w1) n).

(** The three ways a call can leave the state: nothing but locks and clock
    readings; the record of [road] written after some locks; or the switch
    to [road], every other recorded road being closed first. *)
Inductive outcome (road : string) (w w' : World) : Prop :=
| out_locks :
    only_locks w w' -> outcome road w w'
| out_seeded w1 t n :
    only_locks w w1 -> (reads w1 <= n)%nat ->
    w' = seeded w1 road t n -> outcome road w w'
| out_switched w1 t em n :
    only_locks w w1 -> (reads w1 <= n)%nat ->
    In road (keys (traffic_lights w1)) ->
    (forall prev e, entry w prev = Some e -> open_road e <> road ->
                    light w1 prev = Some false) ->
    w' = switched w1 road t em n -> outcome road w w'.

(** What the call does once the guard of a branch has passed: the switch,
    or the record alone when locking ran into an unknown road. *)
Definition after_locking (clock : nat -> Z) (road : string)
  (em : World -> Z) (extra : nat) (w : World) : result unit * World :=
  match lock_others road w with
  | (Val _, w1) =>
      (Val tt, switched w1 road (clock (reads w1)) (em w1)
                        (extra + S (reads w1)))
  | (Exc _, w1) =>
      (Val tt, seeded w1 road (clock (reads w1)) (S (reads w1)))
  end.

(** The road the emergency scan stops at: the first one, in the order of the
    dictionary, with any emergency vehicle. *)
Definition has_emergency (c : Counts) : bool :=
  (ambulance c >? 0) || (firefighter c >? 0) || (police c >? 0).

Fixpoint emergency_road (items : list (string * Counts)) : option string :=
  match items with
  | [] => None
  | (road, c) :: rest =>
      if has_emergency c then Some road else emergency_road rest
  end.

(** The road the density branch hands to [update_traffic_with_lock]: the
    first road whose sum of counts is greatest. *)
Definition keyed_totals (rd : dict RoadDatum) : list (string * Z) :=
  let total := total_counts_of (road_counts_of rd) in
  map (fun k => (k, total_get total k)) (keys total).

Definition max_count_road (rd : dict RoadDatum) : option string :=
  match keyed_totals rd with
  | [] => None
  | x :: xs => Some (max_from x xs)
  end.

(** The two tests of the overdue monitor as functions of what they read.
    [overdue] is the test of the scan at time [ct]; [eligible_at] is the
    condition of the list comprehension at the reading [t], with the
    exception it raises when a subscript fails. *)
Definition overdue (d : dict Entry) (ct : Z) (r : string) : bool :=
  match get d r with
  | Some e => ct - time e >=? 120
  | None => false
  end.

Definition eligible_at (d : dict Entry) (rd : option (dict RoadDatum))
  (t : Z) (r : string) : result bool :=
  match get d r with
  | None => Exc KeyError
  | Some e =>
      if t - time e >=? 10 then
        match rd with
        | None => Exc TypeError
        | Some rd =>
            match get rd r with
            | Some x => Val (car (counts x) >? 0)
            | None => Exc KeyError
            end
        end
      else Val false
  end.

(** The list comprehension: the [i]-th road of [ks] is tested at the reading
    [clock (n + i)].  The second component is the number of readings taken
    when the comprehension ends or raises. *)
Fixpoint eligible_roads_from (clock : nat -> Z) (d : dict Entry)
  (rd : option (dict RoadDatum)) (n : nat) (ks : list string)
  : result (list string) * nat :=
  match ks with
  | [] => (Val [], n)
  | r :: ks' =>
      match eligible_at d rd (clock n) r with
      | Exc e => (Exc e, S n)
      | Val b =>
          match eligible_roads_from clock d rd (S n) ks' with
          | (Val rest, m) => (Val (if b then r :: rest else rest), m)
          | (Exc e, m) => (Exc e, m)
          end
      end
  end.

(** The number of cars last counted on a road, [0] without a snapshot. *)
Definition cars (w : World) (r : string) : Z :=
  match get (feed w) r with
  | Some x => car (counts x)
  | None => 0
  end.


(** The choice among the eligible roads and the switch that follows it. *)
Definition most_cars (w : World) (eligible_roads : list string)
  : option string :=
  match map (fun r => (r, cars w r)) eligible_roads with
  | [] => None
  | x :: xs => Some (max_from x xs)
  end.

Definition open_road_now (current_time : Z) (new_open_road : string)
  (w : World) : result unit * World :=
  match lock_others new_open_road w with
  | (Exc e, w1) => (Exc e, w1)
  | (Val _, w1) =>
      match light w1 new_open_road with
      | None => (Exc KeyError, w1)
      | Some _ =>
          (Val tt, switched w1 new_open_road current_time
                            (last_open_time_em w1) (reads w1))
      end
  end.

(** The clock never runs backwards. *)
Definition monotone (clock : nat -> Z) : Prop :=
  forall i j, (i <= j)%nat -> clock i <= clock j.

(** As long as the cooldown lasts (up to the [N]-th clock reading),
    [last_open_time_em] does not fall below the time [T] of the emergency;
    [k0] readings had been taken when it was written. *)
Definition cooling_down (T : Z) (k0 N : nat) (w : World) : Prop :=
  (k0 <= reads w)%nat /\
  ((S (reads w) <= N)%nat -> T <= last_open_time_em w).

(** An operation of the event loop is configured when the frame it ingests
    belongs to a road of [video_caps]. *)
Definition configured (video_caps : list string) (o : op) : bool :=
  match o with
  | Ingest road _ _ => existsb (String.eqb road) video_caps
  | _ => true
  end.

(** ** Scenarios *)

(** A clock that starts in November 2023 and moves on by [step] between two
    readings. *)
Definition ticking (step : Z) : nat -> Z :=
  fun n => 1700000000 + step * Z.of_nat n.

Definition two_roads : list string := ["Road1"; "Road2"].
Definition three_roads : list string := ["Road1"; "Road2"; "Road3"].

Definition just_cars (n : Z) : Counts := mkCounts 0 0 0 0 n.
Definition one_ambulance : Counts := mkCounts 1 0 0 0 0.
Definition one_firefighter : Counts := mkCounts 0 1 0 0 0.
Definition one_police : Counts := mkCounts 0 0 1 0 0.

(** One road seen with five cars, nothing decided yet. *)
Definition first_frame : World :=
  run (ticking 1) [Ingest "Road1" (just_cars 5) 5] (initial two_roads).

(** A police car on the first road, an ambulance on the second and a fire
    engine on the third, all lights closed. *)
Definition three_emergencies : World :=
  run (ticking 1)
      [Ingest "Road1" one_police 1; Ingest "Road2" one_ambulance 1;
       Ingest "Road3" one_firefighter 1]
      (initial three_roads).

(** The state in which the first tick after that frame calls
    [unlock_traffic]: the snapshot dictionary bound, the two clock readings
    of the guard taken. *)
Definition before_first_unlock : World :=
  with_reads (with_road_data_bound first_frame true) 2.

(** [Road1] opened by the density branch, then [Road2] seen with more
    traffic. *)
Definition busier_neighbour : World :=
  run (ticking 1)
      [Ingest "Road1" (just_cars 5) 5; Tick; Ingest "Road2" (just_cars 9) 9]
      (initial two_roads).

(** [Road1] opened for an ambulance that is still there. *)
Definition ambulance_served : World :=
  run (ticking 50) [Ingest "Road1" one_ambulance 1; Tick]
      (initial two_roads).

(** [Road1] (one car) was opened and then closed for [Road2] (five cars and a
    jam); both records are minutes old by the next reading. *)
Definition starved_road : World :=
  run (ticking 200)
      [Ingest "Road1" (mkCounts 0 0 0 50 1) 3; Tick;
       Ingest "Road2" (mkCounts 0 0 0 100 5) 9; Tick]
      (initial two_roads).

(** The same history with the car counts exchanged. *)
Definition starved_busy_road : World :=
  run (ticking 200)
      [Ingest "Road1" (mkCounts 0 0 0 50 5) 7; Tick;
       Ingest "Road2" (mkCounts 0 0 0 100 1) 5; Tick]
      (initial two_roads).

(** [Road1] open for a jam without a single car. *)
Definition jam_without_cars : World :=
  run (ticking 200) [Ingest "Road1" (mkCounts 0 0 0 7 0) 1; Tick]
      (initial two_roads).

(** The state in which [Road1] is about to be opened for an ambulance, and
    what the feed reports right after: the ambulance gone, [Road2] busy. *)
Definition ambulance_arrives : World :=
  run (ticking 1) [Ingest "Road1" one_ambulance 1] (initial two_roads).

Definition ambulance_gone : list op :=
  [Ingest "Road1" (just_cars 0) 0; Ingest "Road2" (just_cars 9) 9; Tick].

(** A clock that is set back by 99 between its second and third reading, as
    [time.time] is when the system time is adjusted, and runs on from its
    fifth. *)
Definition stepping_back : nat -> Z :=
  fun n => if (n <? 2)%nat then 1700000100
           else if (n <? 4)%nat then 1700000001
           else 1700000100 + Z.of_nat n.

(** [Road1] has just been opened for an ambulance, and what follows: a second
    ambulance on [Road2] is served, then both are gone and [Road3] is the
    busiest road. *)
Definition first_ambulance : World :=
  run stepping_back [Ingest "Road1" one_ambulance 1; Tick]
      (initial three_roads).

Definition second_ambulance : list op :=
  [Ingest "Road1" (just_cars 0) 0; Ingest "Road2" one_ambulance 1; Tick;
   Ingest "Road2" (just_cars 0) 0; Ingest "Road3" (just_cars 9) 9].

(** ** The rest of the program *)

(** The counting loop of [process_video_frame].  A tracked box is seen as
    its id, its class and [object_Area], the product [w * h] of two floats,
    which is a rational number; [zip] stops at the shortest of its three
    arguments. *)
Fixpoint zip3 {A B C} (xs : list A) (ys : list B) (zs : list C)
  : list (A * B * C) :=
  match xs, ys, zs with
  | x :: xs', y :: ys', z :: zs' => (x, y, z) :: zip3 xs' ys' zs'
  | _, _, _ => []
  end.

Definition normalized_threshold : QArith_base.Q := QArith_base.inject_Z 7000.

Definition count_track (road_counts : Counts)
  (t : Z * Z * QArith_base.Q) : Counts :=
  let '(_, cls, object_Area) := t in
  let c := road_counts in
  if cls =? 0 then
    mkCounts (ambulance c + 1) (firefighter c) (police c) (traffic c) (car c)
  else if cls =? 1 then
    mkCounts (ambulance c) (firefighter c + 1) (police c) (traffic c) (car c)
  else if cls =? 4 then
    mkCounts (ambulance c) (firefighter c) (police c + 1) (traffic c) (car c)
  else if cls =? 3 then
    mkCounts (ambulance c) (firefighter c) (police c) (traffic c) (car c + 1)
  else if cls =? 2 then
    if negb (QArith_base.Qle_bool object_Area normalized_threshold) then
      mkCounts (ambulance c) (firefighter c) (police c) (traffic c + 7)
               (car c)
    else
      mkCounts (ambulance c) (firefighter c) (police c) (traffic c + 13)
               (car c)
  else c.

Definition count_tracks (track_ids track_clss : list Z)
  (areas : list QArith_base.Q) : Counts :=
  fold_left count_track (zip3 track_ids track_clss areas)
            (mkCounts 0 0 0 0 0).

(** [self.road_data[road] = [road_counts, len(track_ids)]] for one frame. *)
Definition ingest_frame (road : string) (track_ids track_clss : list Z)
  (areas : list QArith_base.Q) : op :=
  Ingest road (count_tracks track_ids track_clss areas)
         (Z.of_nat (List.length track_ids)).

(** The classes the detector reports for emergency vehicles. *)
Definition emergency_class (cls : Z) : bool :=
  (cls =? 0) || (cls =? 1) || (cls =? 4).

(** The body of [update_traffic_system]; the call of [root.after] that
    re-arms the pulse comes last and is reached only when both calls have
    returned. *)
Definition update_traffic_system (clock : nat -> Z) : M unit :=
  process_and_update_traffic clock ;;
  check_and_open_overdue_road clock.

(** The program once [set_gui] has been called, before any frame. *)
Definition attached (video_caps : list string) : World :=
  snd (run_op (fun _ => 0) SetGui (initial video_caps)).

(** A light mapping with at most one road open. *)
Definition mapping_exclusive (l : dict bool) : Prop :=
  (List.length (filter (fun kv => snd kv) l) <= 1)%nat.

(** The display is up to date: nothing was shown yet and every road is
    closed, or the mapping shown last is the current one. *)
Definition synced (w : World) : Prop :=
  (display w = [] /\ forall r, light w r <> Some true) \/
  exists rest, display w = traffic_lights w :: rest.

(** The sum of the counts of a snapshot. *)
Definition total_of (kv : string * RoadDatum) : Z :=
  sum_values (counts (snd kv)).

(** A clock that reads three times within a few units and then jumps by
    200. *)
Definition jumping : nat -> Z :=
  fun n => if (n <? 3)%nat then 1700000000 + Z.of_nat n
           else 1700000200 + Z.of_nat n.

(** [Road1] was opened long ago; [Road3] and then [Road2] were opened within
    the last few units, so both their records are young and [Road3] is
    closed again. *)
Definition three_switches : World :=
  run jumping
      [Ingest "Road1" (just_cars 2) 2; Tick;
       Ingest "Road3" (just_cars 5) 5; Tick;
       Ingest "Road2" (just_cars 9) 9; Tick]
      (initial three_roads).

(** ** Facts about dictionaries *)

Section DictFacts.
Context {V : Type}.
Implicit Types (d : dict V) (k : string) (v : V).

Lemma get_set_same d k v : get (set d k v) k = Some v.
Proof.
  induction d as [|[k' v'] d IH]; simpl.
  - now rewrite String.eqb_refl.
  - destruct (String.eqb k' k) eqn:E; simpl.
    + now rewrite String.eqb_refl.
    + now rewrite E.
Qed.

Lemma get_set_other d k k' v : k <> k' -> get (set d k v) k' = get d k'.
Proof.
  intros Hne. induction d as [|[k0 v0] d IH]; simpl.
  - destruct (String.eqb_spec k k'); congruence.
  - destruct (String.eqb_spec k0 k) as [->|Hk]; simpl.
    + destruct (String.eqb_spec k k'); congruence.
    + destruct (String.eqb_spec k0 k'); congruence.
Qed.

Lemma get_In_keys d k v : get d k = Some v -> In k (keys d).
Proof.
  induction d as [|[k' v'] d IH]; simpl; [discriminate|].
  destruct (String.eqb_spec k' k); auto.
Qed.

Lemma In_keys_get d k : In k (keys d) -> exists v, get d k = Some v.
Proof.
  induction d as [|[k' v'] d IH]; simpl; [tauto|].
  intros [->|Hin].
  - rewrite String.eqb_refl. eauto.
  - destruct (String.eqb k' k); eauto.
Qed.

Lemma get_None_keys d k : get d k = None -> ~ In k (keys d).
Proof.
  intros Hg Hin. apply In_keys_get in Hin as [v Hv]. congruence.
Qed.

Lemma keys_set_In d k v k' :
  In k' (keys (set d k v)) <-> k' = k \/ In k' (keys d).
Proof.
  induction d as [|[k0 v0] d IH]; simpl.
  - intuition congruence.
  - destruct (String.eqb_spec k0 k) as [->|Hk]; simpl.
    + intuition congruence.
    + rewrite IH. intuition congruence.
Qed.

Lemma keys_set_present d k v :
  In k (keys d) -> keys (set d k v) = keys d.
Proof.
  induction d as [|[k0 v0] d IH]; simpl; [tauto|].
  destruct (String.eqb_spec k0 k) as [->|Hk]; simpl; [easy|].
  intros [?|Hin]; [congruence|]. now rewrite IH.
Qed.

Lemma keys_set_absent d k v :
  ~ In k (keys d) -> keys (set d k v) = keys d ++ [k].
Proof.
  induction d as [|[k0 v0] d IH]; simpl; [easy|].
  intros Hn. destruct (String.eqb_spec k0 k) as [->|Hk]; simpl.
  - tauto.
  - rewrite IH; tauto.
Qed.

Lemma NoDup_keys_set d k v : NoDup (keys d) -> NoDup (keys (set d k v)).
Proof.
  intros Hnd. destruct (in_dec string_dec k (keys d)) as [Hin|Hn].
  - now rewrite keys_set_present.
  - rewrite keys_set_absent by assumption.
    apply NoDup_app; [assumption|repeat constructor; simpl; tauto|].
    intros x Hx [<-|[]]. tauto.
Qed.

Lemma mem_true_iff d k : mem d k = true <-> In k (keys d).
Proof.
  unfold mem. split.
  - destruct (get d k) eqn:E; [|discriminate].
    intros _. eapply get_In_keys; eauto.
  - intros Hin. apply In_keys_get in Hin as [v ->]. reflexivity.
Qed.

End DictFacts.

(** ** The monad, step by step *)

Lemma bind_Val {A B} (c : M A) (k : A -> M B) w a w' :
  c w = (Val a, w') -> bind c k w = k a w'.
Proof. unfold bind. now intros ->. Qed.

Lemma bind_Exc {A B} (c : M A) (k : A -> M B) w e w' :
  c w = (Exc e, w') -> bind c k w = (Exc e, w').
Proof. unfold bind. now intros ->. Qed.

Lemma bind_inv_Val {A B} (c : M A) (k : A -> M B) w b w' :
  bind c k w = (Val b, w') ->
  exists a w1, c w = (Val a, w1) /\ k a w1 = (Val b, w').
Proof.
  unfold bind. destruct (c w) as [[a|e] w1]; [eauto|discriminate].
Qed.

Lemma bind_inv_Exc {A B} (c : M A) (k : A -> M B) w e w' :
  bind c k w = (Exc e, w') ->
  c w = (Exc e, w') \/ exists a w1, c w = (Val a, w1) /\ k a w1 = (Exc e, w').
Proof.
  unfold bind. destruct (c w) as [[a|e0] w1]; [eauto|].
  intros [= -> ->]. now left.
Qed.

(** ** Locking and unlocking *)

Lemma same_records_refl w : same_records w w.
Proof. unfold same_records. auto 10. Qed.

Lemma same_records_trans w1 w2 w3 :
  same_records w1 w2 -> same_records w2 w3 -> same_records w1 w3.
Proof. unfold same_records. intuition (try congruence). lia. Qed.

Lemma only_locks_refl w : only_locks w w.
Proof. split; [apply same_records_refl|]. split; [reflexivity|now left]. Qed.

Lemma only_locks_with_reads w n :
  (reads w <= n)%nat -> only_locks w (with_reads w n).
Proof.
  intros Hn. split; [unfold same_records; simpl; auto 10|].
  split; [reflexivity|now left].
Qed.

Lemma only_locks_trans w1 w2 w3 :
  only_locks w1 w2 -> only_locks w2 w3 -> only_locks w1 w3.
Proof.
  intros (E1 & K1 & P1) (E2 & K2 & P2). split; [|split].
  - eapply same_records_trans; eauto.
  - congruence.
  - intros r. destruct (P1 r) as [H1|[H1 H1']], (P2 r) as [H2|[H2 H2']].
    + left; congruence.
    + right; split; congruence.
    + right; split; congruence.
    + congruence.
Qed.

Lemma only_locks_entry w w' r : only_locks w w' -> entry w' r = entry w r.
Proof. intros ((_ & _ & E & _) & _). unfold entry. now rewrite E. Qed.

Lemma only_locks_closed w w' r :
  only_locks w w' -> light w r = Some false -> light w' r = Some false.
Proof. intros (_ & _ & P) H. destruct (P r) as [?|[? ?]]; congruence. Qed.

Lemma only_locks_open w w' r :
  only_locks w w' -> light w' r = Some true -> light w r = Some true.
Proof. intros (_ & _ & P) H. destruct (P r) as [?|[? ?]]; congruence. Qed.

Lemma lock_traffic_eq road w :
  lock_traffic road w =
  match light w road with
  | None => (Exc KeyError, w)
  | Some false => (Val tt, w)
  | Some true =>
      (Val tt, with_traffic_lights w (set (traffic_lights w) road false))
  end.
Proof.
  unfold lock_traffic, bind, subscript, light.
  destruct (get (traffic_lights w) road) as [[]|]; reflexivity.
Qed.

Lemma unlock_traffic_eq road w :
  unlock_traffic road w =
  match light w road with
  | None => (Exc KeyError, w)
  | Some true => (Val tt, w)
  | Some false =>
      (Val tt, with_traffic_lights w (set (traffic_lights w) road true))
  end.
Proof.
  unfold unlock_traffic, bind, subscript, light.
  destruct (get (traffic_lights w) road) as [[]|]; reflexivity.
Qed.

Lemma lock_traffic_only_locks road w :
  only_locks w (snd (lock_traffic road w)).
Proof.
  rewrite lock_traffic_eq. destruct (light w road) as [[]|] eqn:E; simpl;
    try apply only_locks_refl.
  split; [unfold same_records; simpl; auto 10|]. split; simpl.
  - apply keys_set_present. eapply get_In_keys; exact E.
  - intros r. unfold light; simpl. destruct (string_dec road r) as [<-|Hne].
    + right. now rewrite get_set_same.
    + left. now apply get_set_other.
Qed.

Lemma lock_traffic_Val road w w' :
  lock_traffic road w = (Val tt, w') -> light w' road = Some false.
Proof.
  rewrite lock_traffic_eq. destruct (light w road) as [[]|] eqn:E;
    intros [= <-]; [|assumption].
  unfold light; simpl. apply get_set_same.
Qed.

Lemma lock_traffic_Exc road w e w' :
  lock_traffic road w = (Exc e, w') ->
  e = KeyError /\ ~ In road (keys (traffic_lights w)).
Proof.
  rewrite lock_traffic_eq. destruct (light w road) as [[]|] eqn:E;
    intros [= <- <-]. split; [reflexivity|]. now apply get_None_keys.
Qed.

Lemma lock_previous_only_locks road prev w :
  only_locks w (snd (lock_previous road prev w)).
Proof.
  unfold lock_previous, bind, subscript.
  destruct (get (last_open_data w) prev) as [e|]; simpl;
    [|apply only_locks_refl].
  destruct (negb (open_road e =? road)%string); simpl;
    [apply lock_traffic_only_locks | apply only_locks_refl].
Qed.

Lemma lock_previous_Val road prev w w' e :
  lock_previous road prev w = (Val tt, w') ->
  entry w prev = Some e -> open_road e <> road ->
  light w' prev = Some false.
Proof.
  unfold lock_previous, bind, subscript, entry. intros H He Hne.
  rewrite He in H. apply String.eqb_neq in Hne. rewrite Hne in H. simpl in H.
  eapply lock_traffic_Val; eauto.
Qed.

Lemma lock_previous_Exc road prev w e w' :
  lock_previous road prev w = (Exc e, w') ->
  e = KeyError /\
  (~ In prev (keys (last_open_data w)) \/
   ~ In prev (keys (traffic_lights w))).
Proof.
  unfold lock_previous, bind, subscript.
  destruct (get (last_open_data w) prev) as [en|] eqn:E.
  - destruct (negb (open_road en =? road)%string); [|discriminate].
    intros H. apply lock_traffic_Exc in H. tauto.
  - intros [= <- <-]. split; [reflexivity|]. left. now apply get_None_keys.
Qed.

Lemma lock_loop_only_locks road ks w :
  only_locks w (snd (for_each ks (lock_previous road) w)).
Proof.
  revert w. induction ks as [|k ks IH]; intros w; simpl.
  - apply only_locks_refl.
  - unfold bind. pose proof (lock_previous_only_locks road k w) as H.
    destruct (lock_previous road k w) as [[[]|e] w1]; simpl in *; [|exact H].
    eapply only_locks_trans; [exact H | apply IH].
Qed.

Lemma lock_loop_Val road ks w w' :
  for_each ks (lock_previous road) w = (Val tt, w') ->
  forall prev e, In prev ks -> entry w prev = Some e -> open_road e <> road ->
                 light w' prev = Some false.
Proof.
  revert w. induction ks as [|k ks IH]; intros w H prev e Hin He Hne;
    simpl in *; [tauto|].
  apply bind_inv_Val in H as ([] & w1 & H1 & H2).
  pose proof (lock_previous_only_locks road k w) as L1. rewrite H1 in L1.
  pose proof (lock_loop_only_locks road ks w1) as L2. rewrite H2 in L2.
  simpl in L1, L2.
  destruct (in_dec string_dec prev ks) as [Hks|Hks].
  - eapply IH; eauto. now rewrite (only_locks_entry _ _ _ L1).
  - destruct Hin as [->|?]; [|tauto].
    eapply only_locks_closed; [exact L2|].
    eapply lock_previous_Val; eauto.
Qed.

Lemma lock_loop_Exc road ks w e w' :
  for_each ks (lock_previous road) w = (Exc e, w') ->
  e = KeyError /\
  exists prev, In prev ks /\
    (~ In prev (keys (last_open_data w)) \/
     ~ In prev (keys (traffic_lights w))).
Proof.
  revert w. induction ks as [|k ks IH]; intros w H; simpl in *;
    [discriminate|].
  apply bind_inv_Exc in H as [H|([] & w1 & H1 & H2)].
  - apply lock_previous_Exc in H as [-> H]. eauto.
  - pose proof (lock_previous_only_locks road k w) as L1. rewrite H1 in L1.
    destruct L1 as ((_ & _ & E1 & _) & K1 & _). simpl in *.
    apply IH in H2 as (-> & prev & Hin & Hp). split; [reflexivity|].
    exists prev. split; [now right|].
    rewrite K1 in Hp. rewrite E1 in Hp. exact Hp.
Qed.

Lemma lock_others_only_locks road w :
  only_locks w (snd (lock_others road w)).
Proof. apply lock_loop_only_locks. Qed.

Lemma lock_others_Val road w w' :
  lock_others road w = (Val tt, w') ->
  forall prev e, entry w prev = Some e -> open_road e <> road ->
                 light w' prev = Some false.
Proof.
  intros H prev e He Hne. eapply lock_loop_Val; [exact H| |exact He|exact Hne].
  eapply get_In_keys; exact He.
Qed.

Lemma lock_others_Exc road w e w' :
  lock_others road w = (Exc e, w') ->
  e = KeyError /\
  exists prev, In prev (keys (last_open_data w)) /\
               ~ In prev (keys (traffic_lights w)).
Proof.
  intros H. apply lock_loop_Exc in H as (-> & prev & Hin & [Hp|Hp]);
    [tauto|eauto].
Qed.

Lemma lock_others_total road w :
  (forall r, In r (keys (last_open_data w)) ->
             In r (keys (traffic_lights w))) ->
  exists w', lock_others road w = (Val tt, w').
Proof.
  intros Hk. destruct (lock_others road w) as [[[]|e] w'] eqn:E; [eauto|].
  apply lock_others_Exc in E as (_ & prev & Hin & Hn). exfalso. auto.
Qed.


(** ** [update_traffic_with_lock], case by case *)

Section Switching.

Variable clock : nat -> Z.

Lemma emergency_guard_eq road h w :
  emergency_guard road h w =
  if h then
    match light w road with
    | Some state => (Val (Bool.eqb state false), w)
    | None => (Exc KeyError, w)
    end
  else (Val false, w).
Proof.
  unfold emergency_guard, and_then, bind, ret, subscript, light.
  destruct h; [|reflexivity].
  destruct (get (traffic_lights w) road); reflexivity.
Qed.

Lemma density_guard_eq road h w :
  density_guard clock road h w =
  match light w road with
  | Some false =>
      if clock (reads w) - last_time_or_0 w road >=? 10 then
        if h then (Val false, with_reads w (S (reads w)))
        else (Val (clock (S (reads w)) - last_open_time_em w >=? 10),
              with_reads w (S (S (reads w))))
      else (Val false, with_reads w (S (reads w)))
  | _ => (Val false, w)
  end.
Proof.
  unfold density_guard, and_then, bind, ret, gets, subscript, mem, light,
    time_time.
  destruct (get (traffic_lights w) road) as [[]|] eqn:E; simpl;
    rewrite ?E; simpl; try reflexivity.
  unfold last_time_or_0.
  destruct (clock (reads w) - _ >=? 10); [|reflexivity].
  destruct h; reflexivity.
Qed.

Lemma emergency_transition_Val road w w1 :
  lock_others road w = (Val tt, w1) ->
  light w road = Some false ->
  emergency_transition clock road w =
  (Val tt, switched w1 road (clock (reads w1)) (clock (S (reads w1)))
                    (S (S (reads w1)))).
Proof.
  intros H Hl. unfold emergency_transition. rewrite (bind_Val _ _ _ _ _ H).
  pose proof (lock_others_only_locks road w) as L. rewrite H in L.
  apply only_locks_closed with (r := road) in L; [|exact Hl]. simpl in L.
  unfold bind at 1. rewrite unlock_traffic_eq, L. reflexivity.
Qed.

Lemma density_transition_Val road w w1 :
  lock_others road w = (Val tt, w1) ->
  light w road = Some false ->
  density_transition clock road w =
  (Val tt, switched w1 road (clock (reads w1)) 0 (S (reads w1))).
Proof.
  intros H Hl. unfold density_transition. rewrite (bind_Val _ _ _ _ _ H).
  pose proof (lock_others_only_locks road w) as L. rewrite H in L.
  apply only_locks_closed with (r := road) in L; [|exact Hl]. simpl in L.
  unfold bind at 1. rewrite unlock_traffic_eq, L. reflexivity.
Qed.

Lemma uwl_emergency_closed road w :
  light w road = Some false ->
  update_traffic_with_lock clock road true w =
  after_locking clock road (fun w1 => clock (S (reads w1))) 1 w.
Proof.
  intros Hl. unfold update_traffic_with_lock, try_except_KeyError, bind.
  rewrite emergency_guard_eq, Hl. simpl. unfold after_locking.
  destruct (lock_others road w) as [[[]|e] w1] eqn:E.
  - rewrite (emergency_transition_Val _ _ _ E Hl). reflexivity.
  - unfold emergency_transition. rewrite (bind_Exc _ _ _ _ _ E).
    apply lock_others_Exc in E as [-> _]. reflexivity.
Qed.

Lemma uwl_emergency_unknown road w :
  light w road = None ->
  update_traffic_with_lock clock road true w =
  (Val tt, seeded w road (clock (reads w)) (S (reads w))).
Proof.
  intros Hl. unfold update_traffic_with_lock, try_except_KeyError, bind.
  rewrite emergency_guard_eq, Hl. reflexivity.
Qed.

Lemma uwl_open road h w :
  light w road = Some true ->
  update_traffic_with_lock clock road h w = (Val tt, w).
Proof.
  intros Hl. unfold update_traffic_with_lock, try_except_KeyError, bind.
  rewrite emergency_guard_eq, Hl.
  destruct h; simpl; rewrite density_guard_eq, Hl; reflexivity.
Qed.

Lemma uwl_density_unknown road w :
  light w road = None ->
  update_traffic_with_lock clock road false w = (Val tt, w).
Proof.
  intros Hl. unfold update_traffic_with_lock, try_except_KeyError, bind.
  rewrite emergency_guard_eq. simpl. rewrite density_guard_eq, Hl.
  reflexivity.
Qed.

Lemma uwl_density_closed road w :
  light w road = Some false ->
  update_traffic_with_lock clock road false w =
  if clock (reads w) - last_time_or_0 w road >=? 10 then
    if clock (S (reads w)) - last_open_time_em w >=? 10 then
      after_locking clock road (fun _ => 0) 0 (with_reads w (S (S (reads w))))
    else (Val tt, with_reads w (S (S (reads w))))
  else (Val tt, with_reads w (S (reads w))).
Proof.
  intros Hl. unfold update_traffic_with_lock, try_except_KeyError, bind.
  rewrite emergency_guard_eq. simpl. rewrite density_guard_eq, Hl.
  destruct (clock (reads w) - _ >=? 10); [|reflexivity].
  destruct (clock (S (reads w)) - _ >=? 10); [|reflexivity].
  unfold after_locking. set (wg := with_reads w (S (S (reads w)))).
  assert (Hg : light wg road = Some false) by exact Hl.
  destruct (lock_others road wg) as [[[]|e] w1] eqn:E.
  - rewrite (density_transition_Val _ _ _ E Hg). reflexivity.
  - unfold density_transition. rewrite (bind_Exc _ _ _ _ _ E).
    apply lock_others_Exc in E as [-> _]. reflexivity.
Qed.

End Switching.

(** ** Consistency is kept by every step *)

Lemma set_same_value {V} (d : dict V) k v : get d k = Some v -> set d k v = d.
Proof.
  induction d as [|[k' v'] d IH]; simpl; [discriminate|].
  destruct (String.eqb_spec k' k) as [->|Hk].
  - now intros [= ->].
  - intros H. now rewrite IH.
Qed.

Lemma consistent_ext w w' :
  traffic_lights w' = traffic_lights w ->
  last_open_data w' = last_open_data w ->
  consistent w -> consistent w'.
Proof.
  intros El Ed [N R S X].
  split; unfold open_recorded, self_keyed, exclusive, light, entry in *;
    rewrite ?El, ?Ed; assumption.
Qed.

Lemma consistent_only_locks w w' :
  consistent w -> only_locks w w' -> consistent w'.
Proof.
  intros [N R S X] L. pose proof L as ((_ & _ & Ed & _) & K & _). split.
  - now rewrite K.
  - intros r Hr. rewrite Ed. apply R. eapply only_locks_open; eauto.
  - intros r e He. rewrite (only_locks_entry _ _ _ L) in He. eauto.
  - intros r1 r2 H1 H2. apply X; eapply only_locks_open; eauto.
Qed.

Lemma self_keyed_set (d : dict Entry) road t :
  (forall r e, get d r = Some e -> open_road e = r) ->
  forall r e, get (set d road (mkEntry t road)) r = Some e -> open_road e = r.
Proof.
  intros S r e. destruct (string_dec road r) as [<-|Hne].
  - rewrite get_set_same. now intros [= <-].
  - rewrite get_set_other by assumption. apply S.
Qed.

Lemma consistent_seeded w road t n :
  consistent w -> consistent (seeded w road t n).
Proof.
  intros [N R S X]. split; try assumption.
  - intros r Hr. simpl. apply keys_set_In. right. now apply R.
  - intros r e. unfold entry; simpl. now apply self_keyed_set.
Qed.

Lemma consistent_switched w w1 road t em n :
  consistent w -> only_locks w w1 ->
  (forall prev e, entry w prev = Some e -> open_road e <> road ->
                  light w1 prev = Some false) ->
  consistent (switched w1 road t em n).
Proof.
  intros C L Hclosed. pose proof (consistent_only_locks _ _ C L) as [N R S X].
  assert (Honly : forall r,
    get (set (traffic_lights w1) road true) r = Some true -> r = road).
  { intros r Hr. destruct (string_dec road r) as [<-|Hne]; [reflexivity|].
    rewrite get_set_other in Hr by assumption.
    destruct (In_keys_get _ _ (R r Hr)) as [e He].
    change (entry w1 r = Some e) in He.
    rewrite (only_locks_entry _ _ _ L) in He.
    assert (Hroad : open_road e <> road).
    { rewrite (cons_self_keyed _ C _ _ He). congruence. }
    specialize (Hclosed r e He Hroad). unfold light in Hclosed. congruence. }
  eapply consistent_ext with
    (w := mkWorld (feed w1) (road_data_bound w1)
            (set (traffic_lights w1) road true)
            (set (last_open_data w1) road (mkEntry t road))
            (gui w1) em (display w1) n).
  1,2: unfold switched, notified; simpl; now destruct (gui w1).
  split; simpl.
  - now apply NoDup_keys_set.
  - intros r Hr. unfold light in Hr; simpl in *. apply Honly in Hr as ->.
    apply keys_set_In. now left.
  - intros r e. unfold entry; simpl. now apply self_keyed_set.
  - intros r1 r2 H1 H2. unfold light in *; simpl in *.
    apply Honly in H1, H2. congruence.
Qed.

Section Preservation.

Variable clock : nat -> Z.

Lemma after_locking_consistent road em extra w :
  consistent w -> consistent (snd (after_locking clock road em extra w)).
Proof.
  intros C. unfold after_locking.
  pose proof (lock_others_only_locks road w) as L.
  destruct (lock_others road w) as [[[]|e] w1] eqn:E; simpl in *.
  - eapply consistent_switched; eauto. now apply lock_others_Val.
  - apply consistent_seeded. eapply consistent_only_locks; eauto.
Qed.

Lemma uwl_consistent road h w :
  consistent w ->
  consistent (snd (update_traffic_with_lock clock road h w)).
Proof.
  intros C. destruct (light w road) as [[]|] eqn:El.
  - now rewrite uwl_open.
  - destruct h.
    + rewrite uwl_emergency_closed by assumption.
      now apply after_locking_consistent.
    + rewrite uwl_density_closed by assumption.
      repeat match goal with |- context [if ?b then _ else _] =>
        destruct b end; simpl.
      * apply after_locking_consistent.
        eapply consistent_ext; [| |exact C]; reflexivity.
      * eapply consistent_ext; [| |exact C]; reflexivity.
      * eapply consistent_ext; [| |exact C]; reflexivity.
  - destruct h.
    + rewrite uwl_emergency_unknown by assumption.
      now apply consistent_seeded.
    + now rewrite uwl_density_unknown.
Qed.

Lemma uwl_returns road h w :
  fst (update_traffic_with_lock clock road h w) = Val tt.
Proof.
  destruct (light w road) as [[]|] eqn:El.
  - now rewrite uwl_open.
  - destruct h.
    + rewrite uwl_emergency_closed by assumption. unfold after_locking.
      now destruct (lock_others road w) as [[[]|e] w1].
    + rewrite uwl_density_closed by assumption. unfold after_locking.
      repeat match goal with |- context [if ?b then _ else _] =>
        destruct b end; try reflexivity.
      now destruct (lock_others road _) as [[[]|e] w1].
  - destruct h.
    + now rewrite uwl_emergency_unknown.
    + now rewrite uwl_density_unknown.
Qed.

End Preservation.

(** ** The two passes of [update_traffic_light] *)

Lemma for_each_preserves {A} (P : World -> Prop) (body : A -> M unit) xs :
  (forall x w, P w -> P (snd (body x w))) ->
  forall w, P w -> P (snd (for_each xs body w)).
Proof.
  intros Hb. induction xs as [|x xs IH]; intros w Hw; simpl; [exact Hw|].
  unfold bind. specialize (Hb x w Hw).
  destruct (body x w) as [[[]|e] w1]; simpl in *; auto.
Qed.

Lemma max_from_In {A} (xs : list (A * Z)) best :
  In (max_from best xs) (map fst (best :: xs)).
Proof.
  revert best. induction xs as [|x xs IH]; intros best; simpl.
  - now left.
  - destruct (snd x >? snd best).
    + right. apply IH.
    + destruct (IH best) as [H|H]; [now left | now right; right].
Qed.

Section Passes.

Variable clock : nat -> Z.

Lemma emergency_scan_eq h items :
  emergency_scan clock h items =
  match emergency_road items with
  | Some road => update_traffic_with_lock clock road h
  | None => ret tt
  end.
Proof.
  induction items as [|[road c] rest IH]; simpl; [reflexivity|].
  unfold has_emergency.
  destruct (ambulance c >? 0), (firefighter c >? 0), (police c >? 0);
    simpl; try reflexivity; exact IH.
Qed.

Lemma update_traffic_light_eq w :
  update_traffic_light clock w =
  match road_data w with
  | None => (Val tt, w)
  | Some rd =>
      if any_emergency (road_counts_of rd) then
        emergency_scan clock true (road_counts_of rd) w
      else
        match max_count_road rd with
        | None => (Exc ValueError, w)
        | Some m =>
            for_each (keys rd) (fun road =>
              if String.eqb road m
              then update_traffic_with_lock clock road false
              else ret tt) w
        end
  end.
Proof.
  unfold update_traffic_light, bind, gets.
  destruct (road_data w) as [rd|]; [|reflexivity].
  destruct (any_emergency (road_counts_of rd)) eqn:E; [reflexivity|].
  unfold max_count_road, keyed_totals, py_max.
  destruct (map _ (keys (total_counts_of (road_counts_of rd))));
    reflexivity.
Qed.

Lemma update_traffic_light_consistent w :
  consistent w -> consistent (snd (update_traffic_light clock w)).
Proof.
  intros C. rewrite update_traffic_light_eq.
  destruct (road_data w) as [rd|]; [|exact C].
  destruct (any_emergency (road_counts_of rd)).
  - rewrite emergency_scan_eq.
    destruct (emergency_road (road_counts_of rd)); [|exact C].
    now apply uwl_consistent.
  - destruct (max_count_road rd) as [m|]; [|exact C].
    apply for_each_preserves; [|exact C].
    intros road w1 C1. destruct (String.eqb road m); [|exact C1].
    now apply uwl_consistent.
Qed.

Lemma tick_consistent w :
  consistent w -> consistent (snd (process_and_update_traffic clock w)).
Proof.
  intros C. unfold process_and_update_traffic, bind, modify.
  apply update_traffic_light_consistent.
  eapply consistent_ext; [| |exact C]; reflexivity.
Qed.

End Passes.

(** ** The overdue monitor, step by step *)

Section Overdue.

Variable clock : nat -> Z.

Lemma eligible_eq r w :
  eligible clock r w =
  (eligible_at (last_open_data w) (road_data w) (clock (reads w)) r,
   with_reads w (S (reads w))).
Proof.
  unfold eligible, and_then, bind, time_time, subscript, car_of, gets,
    eligible_at, ret, raise. simpl.
  destruct (get (last_open_data w) r) as [e|]; [|reflexivity].
  destruct (clock (reads w) - time e >=? 10); [|reflexivity].
  unfold road_data, bind; simpl. destruct (road_data_bound w); [|reflexivity].
  destruct (get (feed w) r); reflexivity.
Qed.

Lemma filter_eligible_eq ks w :
  filter_comprehension ks (eligible clock) w =
  (fst (eligible_roads_from clock (last_open_data w) (road_data w)
                            (reads w) ks),
   with_reads w (snd (eligible_roads_from clock (last_open_data w)
                        (road_data w) (reads w) ks))).
Proof.
  revert w. induction ks as [|r ks IH]; intros w; simpl.
  - unfold ret. now destruct w.
  - unfold bind at 1. rewrite eligible_eq.
    destruct (eligible_at _ _ _ r) as [b|e]; [|reflexivity].
    unfold bind at 1. rewrite IH. simpl.
    change (road_data (with_reads w (S (reads w)))) with (road_data w).
    destruct (eligible_roads_from clock _ _ (S (reads w)) ks)
      as [[rest|e] m]; reflexivity.
Qed.

Lemma eligible_roads_from_In d rd n ks el m :
  eligible_roads_from clock d rd n ks = (Val el, m) ->
  forall r, In r el ->
    In r ks /\ exists f x, rd = Some f /\ get f r = Some x /\
                           car (counts x) > 0.
Proof.
  revert n el m. induction ks as [|k ks IH]; intros n el m H r Hin;
    simpl in H.
  - injection H as <- <-. destruct Hin.
  - destruct (eligible_at d rd (clock n) k) as [b|e] eqn:Ek; [|discriminate].
    destruct (eligible_roads_from clock d rd (S n) ks) as [[rest|e] m']
      eqn:Er; [|discriminate].
    injection H as <- <-.
    assert (Hrest : In r rest -> In r (k :: ks) /\
              exists f x, rd = Some f /\ get f r = Some x /\
                          car (counts x) > 0).
    { intros Hr. destruct (IH _ _ _ Er r Hr) as [? ?]. split; [now right|].
      assumption. }
    destruct b; [|auto]. destruct Hin as [<-|Hr]; [|auto].
    split; [now left|]. unfold eligible_at in Ek.
    destruct (get d k) as [e|]; [|discriminate].
    destruct (_ >=? 10); [|discriminate].
    destruct rd as [f|]; [|discriminate].
    destruct (get f k) as [x|] eqn:Ex; [|discriminate].
    injection Ek as Ek. exists f, x. repeat split; auto.
    now apply Z.gtb_lt, Z.lt_gt in Ek.
Qed.

Lemma map_cars_eq el w :
  (forall r, In r el -> exists f x, road_data w = Some f /\
                                    get f r = Some x) ->
  map_comprehension el (fun r => n <- car_of r ;; ret (r, n)) w =
  (Val (map (fun r => (r, cars w r)) el), w).
Proof.
  induction el as [|r el IH]; intros H; simpl; [reflexivity|].
  destruct (H r (or_introl eq_refl)) as (f & x & Hrd & Hx).
  assert (Hr : (n <- car_of r ;; ret (r, n)) w = (Val (r, cars w r), w)).
  { unfold car_of, bind, gets, ret, cars. rewrite Hrd, Hx.
    unfold road_data in Hrd.
    destruct (road_data_bound w); [|discriminate]. injection Hrd as <-.
    now rewrite Hx. }
  rewrite (bind_Val _ _ _ _ _ Hr).
  rewrite (bind_Val _ _ _ _ _ (IH (fun r' Hr' => H r' (or_intror Hr')))).
  reflexivity.
Qed.

Lemma open_road_now_eq ct new w :
  (lock_others new ;;
   unlock_traffic new ;;
   assign_entry new ct ;;
   update_traffic_display) w = open_road_now ct new w.
Proof.
  unfold open_road_now, bind at 1.
  destruct (lock_others new w) as [[[]|e] w1]; [|reflexivity].
  unfold bind at 1. rewrite unlock_traffic_eq.
  destruct (light w1 new) as [[]|] eqn:El; try reflexivity.
  unfold switched, bind, assign_entry, update_traffic_display, modify.
  simpl. unfold light in El. rewrite (set_same_value _ _ _ El).
  unfold notified. reflexivity.
Qed.

Lemma open_most_cars_eq ct w :
  open_most_cars clock ct w =
  match eligible_roads_from clock (last_open_data w) (road_data w)
                            (reads w) (keys (last_open_data w)) with
  | (Exc e, m) => (Exc e, with_reads w m)
  | (Val el, m) =>
      match most_cars w el with
      | None => (Val tt, with_reads w m)
      | Some new => open_road_now ct new (with_reads w m)
      end
  end.
Proof.
  unfold open_most_cars, bind at 1, gets. unfold bind at 1.
  rewrite filter_eligible_eq.
  destruct (eligible_roads_from clock _ _ _ _) as [[el|e] m] eqn:E;
    [|reflexivity]. simpl fst; simpl snd.
  destruct el as [|r0 el]; [reflexivity|].
  unfold bind at 1. rewrite map_cars_eq.
  - unfold most_cars.
    change (cars (with_reads w m)) with (cars w).
    destruct (map (fun r => (r, cars w r)) (r0 :: el)) as [|x xs] eqn:Em;
      [discriminate|].
    unfold py_max, bind at 1, ret at 1. apply open_road_now_eq.
  - intros r Hr.
    destruct (eligible_roads_from_In _ _ _ _ _ _ E r Hr)
      as (_ & f & x & Hf & Hx & _).
    exists f, x. split; assumption.
Qed.

Lemma open_road_now_consistent ct new w :
  consistent w -> consistent (snd (open_road_now ct new w)).
Proof.
  intros C. unfold open_road_now.
  pose proof (lock_others_only_locks new w) as L.
  destruct (lock_others new w) as [[[]|e] w1] eqn:E; simpl in *.
  - destruct (light w1 new); simpl.
    + eapply consistent_switched; eauto. now apply lock_others_Val.
    + eapply consistent_only_locks; eauto.
  - eapply consistent_only_locks; eauto.
Qed.

Lemma open_most_cars_consistent ct w :
  consistent w -> consistent (snd (open_most_cars clock ct w)).
Proof.
  intros C. rewrite open_most_cars_eq.
  assert (Cm : forall m, consistent (with_reads w m)).
  { intros m. eapply consistent_ext; [| |exact C]; reflexivity. }
  destruct (eligible_roads_from clock _ _ _ _) as [[el|e] m]; [|apply Cm].
  destruct (most_cars w el); [|apply Cm].
  apply open_road_now_consistent, Cm.
Qed.

Lemma overdue_scan_eq ct ks w :
  (forall k, In k ks -> In k (keys (last_open_data w))) ->
  overdue_scan clock ct ks w =
  if existsb (overdue (last_open_data w) ct) ks
  then open_most_cars clock ct w
  else (Val tt, w).
Proof.
  induction ks as [|k ks IH]; intros Hk; simpl; [reflexivity|].
  destruct (In_keys_get _ _ (Hk k (or_introl eq_refl))) as [e He].
  unfold bind, subscript, overdue at 1. rewrite He.
  destruct (ct - time e >=? 120); [reflexivity|]. simpl.
  apply IH. intros; apply Hk; now right.
Qed.

Lemma check_and_open_overdue_road_eq w :
  check_and_open_overdue_road clock w =
  if existsb (overdue (last_open_data w) (clock (reads w)))
             (keys (last_open_data w))
  then open_most_cars clock (clock (reads w)) (with_reads w (S (reads w)))
  else (Val tt, with_reads w (S (reads w))).
Proof.
  unfold check_and_open_overdue_road, bind, time_time, gets.
  now rewrite overdue_scan_eq.
Qed.

Lemma sweep_consistent w :
  consistent w -> consistent (snd (check_and_open_overdue_road clock w)).
Proof.
  intros C. rewrite check_and_open_overdue_road_eq.
  assert (C1 : consistent (with_reads w (S (reads w)))).
  { eapply consistent_ext; [| |exact C]; reflexivity. }
  destruct (existsb _ _); [|exact C1].
  now apply open_most_cars_consistent.
Qed.

End Overdue.

(** ** Reachable states are consistent *)

Lemma In_get {V} (d : dict V) k v :
  NoDup (keys d) -> In (k, v) d -> get d k = Some v.
Proof.
  induction d as [|[k' v'] d IH]; simpl; [tauto|].
  intros N [[= -> ->]|Hin].
  - now rewrite String.eqb_refl.
  - inversion N as [|? ? Hk N']; subst.
    destruct (String.eqb_spec k' k) as [->|_]; [|auto].
    exfalso. apply Hk. change k with (fst (k, v)). now apply in_map.
Qed.

Lemma all_closed_fold caps (acc : dict bool) :
  NoDup (keys acc) -> (forall r, get acc r <> Some true) ->
  let l := fold_left (fun a road => set a road false) caps acc in
  NoDup (keys l) /\ (forall r, get l r <> Some true) /\
  (forall r, In r (keys l) <-> In r (keys acc) \/ In r caps).
Proof.
  revert acc. induction caps as [|c caps IH]; intros acc N F; simpl.
  - split; [exact N|]. split; [exact F|]. intros r. tauto.
  - destruct (IH (set acc c false)) as (N' & F' & K').
    + now apply NoDup_keys_set.
    + intros r. destruct (string_dec c r) as [<-|Hne].
      * rewrite get_set_same. discriminate.
      * rewrite get_set_other by assumption. apply F.
    + split; [exact N'|]. split; [exact F'|]. intros r.
      rewrite K', keys_set_In. intuition.
Qed.

Lemma initial_consistent caps : consistent (initial caps).
Proof.
  destruct (all_closed_fold caps [] (NoDup_nil _)) as (N & F & _);
    [discriminate|].
  split.
  - exact N.
  - intros r Hr. exfalso. exact (F r Hr).
  - intros r e He. discriminate He.
  - intros r1 r2 H1. exfalso. exact (F r1 H1).
Qed.

Lemma run_op_consistent clock o w :
  consistent w -> consistent (snd (run_op clock o w)).
Proof.
  intros C. destruct o; simpl.
  - eapply consistent_ext; [| |exact C]; reflexivity.
  - eapply consistent_ext; [| |exact C]; reflexivity.
  - now apply tick_consistent.
  - now apply sweep_consistent.
Qed.

Lemma reachable_consistent clock caps w :
  reachable clock caps w -> consistent w.
Proof.
  induction 1 as [|w o _ IH _].
  - apply initial_consistent.
  - now apply run_op_consistent.
Qed.

Lemma consistent_at_most_one_open w : consistent w -> at_most_one_open w.
Proof.
  intros [N _ _ X]. unfold at_most_one_open, open_roads.
  assert (Hopen : forall r,
    In r (map fst (filter (fun kv => snd kv) (traffic_lights w))) ->
    light w r = Some true).
  { intros r Hr. apply in_map_iff in Hr as ([k v] & <- & Hin).
    apply filter_In in Hin as [Hin Hv]. simpl in Hv. subst v.
    now apply In_get. }
  assert (Hnd : NoDup (map fst (filter (fun kv => snd kv)
                                       (traffic_lights w)))).
  { clear Hopen X. unfold keys in N.
    induction (traffic_lights w) as [|[k v] l IH]; simpl; [constructor|].
    inversion N as [|? ? Hk N']; subst.
    destruct v; simpl; [|auto]. constructor; [|auto].
    intros Hin. apply Hk. apply in_map_iff in Hin as (kv & <- & Hf).
    apply filter_In in Hf as [Hf _]. now apply in_map. }
  destruct (map fst _) as [|r1 [|r2 rest]]; simpl; try lia.
  exfalso. inversion Hnd as [|? ? Hn _]; subst. apply Hn. left.
  apply X; apply Hopen; simpl; auto.
Qed.

(** C1. From every reachable state, when a call of the tick
    ([process_and_update_traffic]) or of the sweep
    ([check_and_open_overdue_road]) returns, at most one road has its
    light open. *)
Theorem mutual_exclusion clock video_caps w o w' :
  reachable clock video_caps w ->
  o = Tick \/ o = Sweep ->
  run_op clock o w = (Val tt, w') ->
  at_most_one_open w'.
Proof.
  intros R _ Hrun. apply consistent_at_most_one_open.
  change w' with (snd (Val tt, w')). rewrite <- Hrun.
  apply run_op_consistent. eapply reachable_consistent; eauto.
Qed.

(** ** Outcomes of the calls *)

Lemma switched_fields w1 road t em n :
  feed (switched w1 road t em n) = feed w1 /\
  road_data_bound (switched w1 road t em n) = road_data_bound w1 /\
  traffic_lights (switched w1 road t em n) =
    set (traffic_lights w1) road true /\
  last_open_data (switched w1 road t em n) =
    set (last_open_data w1) road (mkEntry t road) /\
  gui (switched w1 road t em n) = gui w1 /\
  last_open_time_em (switched w1 road t em n) = em /\
  reads (switched w1 road t em n) = n.
Proof. unfold switched, notified. destruct (gui w1); simpl; auto 10. Qed.

Lemma outcome_with_reads road w n w' :
  (reads w <= n)%nat -> outcome road (with_reads w n) w' -> outcome road w w'.
Proof.
  intros Hn [L|w1 t m L Hm E|w1 t em m L Hm Hin Hc E].
  - apply out_locks.
    apply only_locks_trans with (w2 := with_reads w n);
      [now apply only_locks_with_reads|exact L].
  - eapply out_seeded; eauto.
    apply only_locks_trans with (w2 := with_reads w n);
      [now apply only_locks_with_reads|exact L].
  - eapply out_switched; eauto.
    apply only_locks_trans with (w2 := with_reads w n);
      [now apply only_locks_with_reads|exact L].
Qed.

Lemma outcome_extends road w w' : outcome road w w' -> extends w w'.
Proof.
  intros [L|w1 t m L Hm E|w1 t em m L Hm Hin Hc E].
  - destruct L as ((? & ? & ? & ? & ? & ? & ?) & _). now repeat split.
  - destruct L as ((? & ? & ? & ? & ? & ? & ?) & _). subst w'.
    repeat split; simpl; auto. lia.
  - destruct L as ((? & ? & ? & ? & ? & ? & ?) & _). subst w'.
    destruct (switched_fields w1 road t em m)
      as (Hf & Hb & _ & _ & Hg & _ & Hr).
    unfold extends. rewrite Hf, Hb, Hg, Hr. repeat split; auto. lia.
Qed.

Lemma known_only_locks w w' : known w -> only_locks w w' -> known w'.
Proof.
  intros [F R B N FN] ((Ef & Eb & Ed & _) & K & _).
  split; rewrite ?Ef, ?Eb, ?Ed, ?K; assumption.
Qed.

Lemma known_record w1 w' road e :
  known w1 -> In road (keys (feed w1)) -> road_data_bound w1 = true ->
  feed w' = feed w1 -> road_data_bound w' = road_data_bound w1 ->
  (forall r, In r (keys (traffic_lights w')) <->
             In r (keys (traffic_lights w1))) ->
  last_open_data w' = set (last_open_data w1) road e ->
  known w'.
Proof.
  intros [F R B N FN] Hroad Hb Ef Eb K Ed.
  split; rewrite ?Ef, ?Eb, ?Ed; auto.
  - intros r Hr. apply K. auto.
  - intros r Hr. apply keys_set_In in Hr as [->|Hr]; auto.
  - now apply NoDup_keys_set.
Qed.

Lemma known_outcome road w w' :
  known w -> In road (keys (feed w)) -> road_data_bound w = true ->
  outcome road w w' -> known w'.
Proof.
  intros Kn Hroad Hb [L|w1 t m L Hm E|w1 t em m L Hm Hin Hc E].
  - eapply known_only_locks; eauto.
  - pose proof (known_only_locks _ _ Kn L) as K1.
    pose proof L as ((Ef & Eb & _) & _).
    eapply known_record with (w1 := w1) (road := road); subst w';
      try reflexivity; try congruence.
  - pose proof (known_only_locks _ _ Kn L) as K1.
    pose proof L as ((Ef & Eb & _) & _).
    destruct (switched_fields w1 road t em m)
      as (Hf & Hbd & Hl & Hd & _).
    eapply known_record with (w1 := w1) (road := road); subst w';
      try eassumption; try congruence.
    intros r. rewrite Hl, keys_set_In. split; [intros [->|?]|]; auto.
Qed.

Section Outcomes.

Variable clock : nat -> Z.

Lemma after_locking_outcome road em extra w :
  In road (keys (traffic_lights w)) ->
  outcome road w (snd (after_locking clock road em extra w)).
Proof.
  intros Hin. unfold after_locking.
  pose proof (lock_others_only_locks road w) as L.
  destruct (lock_others road w) as [[[]|e] w1] eqn:E; simpl in *.
  - eapply out_switched; [exact L| | | |reflexivity].
    + lia.
    + destruct L as (_ & -> & _). exact Hin.
    + now apply lock_others_Val.
  - eapply out_seeded; [exact L| |reflexivity]. lia.
Qed.

Lemma uwl_outcome road h w :
  outcome road w (snd (update_traffic_with_lock clock road h w)).
Proof.
  destruct (light w road) as [[]|] eqn:El.
  - rewrite uwl_open by assumption. apply out_locks, only_locks_refl.
  - assert (Hin : In road (keys (traffic_lights w)))
      by (eapply get_In_keys; exact El).
    destruct h.
    + rewrite uwl_emergency_closed by assumption.
      now apply after_locking_outcome.
    + rewrite uwl_density_closed by assumption.
      repeat match goal with |- context [if ?b then _ else _] =>
        destruct b end; simpl.
      * apply outcome_with_reads with (n := S (S (reads w))); [lia|].
        now apply after_locking_outcome.
      * apply out_locks, only_locks_with_reads. lia.
      * apply out_locks, only_locks_with_reads. lia.
  - destruct h.
    + rewrite uwl_emergency_unknown by assumption.
      eapply out_seeded; [apply only_locks_refl| |reflexivity]. lia.
    + rewrite uwl_density_unknown by assumption.
      apply out_locks, only_locks_refl.
Qed.

Lemma open_road_now_outcome ct new w :
  outcome new w (snd (open_road_now ct new w)).
Proof.
  unfold open_road_now.
  pose proof (lock_others_only_locks new w) as L.
  destruct (lock_others new w) as [[[]|e] w1] eqn:E; simpl in *.
  - destruct (light w1 new) eqn:El; simpl.
    + eapply out_switched; [exact L| | | |reflexivity].
      * lia.
      * eapply get_In_keys; exact El.
      * now apply lock_others_Val.
    + now apply out_locks.
  - now apply out_locks.
Qed.

Lemma most_cars_In w el new : most_cars w el = Some new -> In new el.
Proof.
  unfold most_cars. destruct el as [|r el]; simpl; [discriminate|].
  intros [= <-].
  pose proof (max_from_In (map (fun r0 => (r0, cars w r0)) el) (r, cars w r))
    as H.
  simpl in H. rewrite map_map in H. simpl in H. now rewrite map_id in H.
Qed.

Lemma eligible_roads_from_reads d rd n ks :
  (n <= snd (eligible_roads_from clock d rd n ks))%nat.
Proof.
  revert n. induction ks as [|k ks IH]; intros n; simpl; [lia|].
  destruct (eligible_at d rd (clock n) k); simpl; [|lia].
  specialize (IH (S n)).
  destruct (eligible_roads_from clock d rd (S n) ks) as [[rest|e] m];
    simpl in *; lia.
Qed.

Lemma open_most_cars_outcome ct w :
  only_locks w (snd (open_most_cars clock ct w)) \/
  exists new, In new (keys (last_open_data w)) /\
              outcome new w (snd (open_most_cars clock ct w)).
Proof.
  rewrite open_most_cars_eq.
  pose proof (eligible_roads_from_reads (last_open_data w) (road_data w)
                (reads w) (keys (last_open_data w))) as Hm.
  destruct (eligible_roads_from clock _ _ _ _) as [[el|e] m] eqn:E;
    simpl in Hm.
  2:{ left. now apply only_locks_with_reads. }
  destruct (most_cars w el) as [new|] eqn:Em.
  2:{ left. now apply only_locks_with_reads. }
  right. exists new. split.
  - apply most_cars_In in Em.
    now destruct (eligible_roads_from_In _ _ _ _ _ _ _ E new Em).
  - apply outcome_with_reads with (n := m); [exact Hm|].
    apply open_road_now_outcome.
Qed.

Lemma sweep_outcome w :
  only_locks w (snd (check_and_open_overdue_road clock w)) \/
  exists new, In new (keys (last_open_data w)) /\
              outcome new w (snd (check_and_open_overdue_road clock w)).
Proof.
  rewrite check_and_open_overdue_road_eq.
  assert (L : only_locks w (with_reads w (S (reads w))))
    by (apply only_locks_with_reads; lia).
  destruct (existsb _ _); [|now left].
  destruct (open_most_cars_outcome (clock (reads w))
              (with_reads w (S (reads w)))) as [H|(new & Hin & H)].
  - left. eapply only_locks_trans; eauto.
  - right. exists new. split; [exact Hin|].
    apply outcome_with_reads with (n := S (reads w)); [lia|exact H].
Qed.

End Outcomes.

(** ** The dictionaries built by [update_traffic_light] *)

Lemma set_absent {V} (d : dict V) k v :
  ~ In k (keys d) -> set d k v = d ++ [(k, v)].
Proof.
  induction d as [|[k' v'] d IH]; simpl; [reflexivity|].
  intros Hn. destruct (String.eqb_spec k' k) as [->|_]; [tauto|].
  rewrite IH; tauto.
Qed.

Lemma fold_set_map {A B} (f : A -> B) (rd : dict A) (acc : dict B) :
  NoDup (keys acc ++ keys rd) ->
  fold_left (fun a kv => set a (fst kv) (f (snd kv))) rd acc =
  acc ++ map (fun kv => (fst kv, f (snd kv))) rd.
Proof.
  revert acc. induction rd as [|[k v] rd IH]; intros acc N; simpl.
  - now rewrite app_nil_r.
  - rewrite set_absent.
    + rewrite IH.
      * now rewrite <- app_assoc.
      * unfold keys in *. rewrite map_app, <- app_assoc. exact N.
    + apply NoDup_remove_2 in N. intros Hin. apply N.
      apply in_or_app. now left.
Qed.

Lemma road_counts_of_map rd :
  NoDup (keys rd) ->
  road_counts_of rd = map (fun kv => (fst kv, counts (snd kv))) rd.
Proof. intros N. unfold road_counts_of. now rewrite fold_set_map. Qed.

Lemma keys_map {A B} (f : A -> B) (d : dict A) :
  keys (map (fun kv => (fst kv, f (snd kv))) d) = keys d.
Proof. unfold keys. rewrite map_map. reflexivity. Qed.

Lemma get_map {A B} (f : A -> B) (d : dict A) k :
  get (map (fun kv => (fst kv, f (snd kv))) d) k = option_map f (get d k).
Proof.
  induction d as [|[k' v] d IH]; simpl; [reflexivity|].
  destruct (String.eqb k' k); [reflexivity|exact IH].
Qed.

Lemma keyed_totals_map rd :
  NoDup (keys rd) ->
  keyed_totals rd =
  map (fun kv => (fst kv, sum_values (counts (snd kv)))) rd.
Proof.
  intros N. unfold keyed_totals, total_counts_of.
  rewrite road_counts_of_map by assumption.
  rewrite fold_set_map by (simpl; now rewrite keys_map).
  simpl. rewrite keys_map. unfold keys. rewrite !map_map. simpl.
  apply map_ext_in. intros [k v] Hin. simpl. f_equal.
  unfold total_get.
  rewrite (get_map (fun x => sum_values (counts x)) rd k).
  now rewrite (In_get _ _ _ N Hin).
Qed.

Lemma max_count_road_In rd m :
  NoDup (keys rd) -> max_count_road rd = Some m -> In m (keys rd).
Proof.
  intros N. unfold max_count_road. rewrite keyed_totals_map by assumption.
  destruct rd as [|kv rd]; simpl; [discriminate|]. intros [= <-].
  pose proof (max_from_In
    (map (fun kv => (fst kv, sum_values (counts (snd kv)))) rd)
    (fst kv, sum_values (counts (snd kv)))) as H.
  simpl in H. rewrite map_map in H. exact H.
Qed.

Lemma max_count_road_None rd :
  NoDup (keys rd) -> max_count_road rd = None -> rd = [].
Proof.
  intros N. unfold max_count_road. rewrite keyed_totals_map by assumption.
  destruct rd; [reflexivity|discriminate].
Qed.

Lemma emergency_road_In items r :
  emergency_road items = Some r -> In r (keys items).
Proof.
  induction items as [|[k c] items IH]; simpl; [discriminate|].
  destruct (has_emergency c); [intros [= ->]; now left|auto].
Qed.

Lemma any_emergency_road items :
  any_emergency items = true <-> exists r, emergency_road items = Some r.
Proof.
  induction items as [|[k c] items IH]; simpl.
  - split; [discriminate|intros [? [=]]].
  - fold (has_emergency c). destruct (has_emergency c); simpl.
    + split; eauto.
    + exact IH.
Qed.

(** ** The tick as one call of [update_traffic_with_lock] *)

Section Tick.

Variable clock : nat -> Z.

Lemma for_each_skip m ks w :
  ~ In m ks ->
  for_each ks (fun road =>
    if String.eqb road m
    then update_traffic_with_lock clock road false
    else ret tt) w = (Val tt, w).
Proof.
  induction ks as [|k ks IH]; intros Hn; simpl; [reflexivity|].
  destruct (String.eqb_spec k m) as [->|_]; [simpl in Hn; tauto|].
  unfold bind, ret. apply IH. simpl in Hn. tauto.
Qed.

Lemma density_loop_eq m ks w :
  NoDup ks -> In m ks ->
  for_each ks (fun road =>
    if String.eqb road m
    then update_traffic_with_lock clock road false
    else ret tt) w = update_traffic_with_lock clock m false w.
Proof.
  induction ks as [|k ks IH]; intros N Hin; simpl; [destruct Hin|].
  inversion N as [|? ? Hk N']; subst.
  destruct (String.eqb_spec k m) as [->|Hne].
  - unfold bind. pose proof (uwl_returns clock m false w) as Hr.
    destruct (update_traffic_with_lock clock m false w) as [res w1].
    simpl in Hr. subst res. now apply for_each_skip.
  - unfold bind, ret. apply IH; [assumption|]. destruct Hin; congruence.
Qed.

Lemma tick_eq w :
  NoDup (keys (feed w)) ->
  process_and_update_traffic clock w =
  let w0 := with_road_data_bound w true in
  match emergency_road (road_counts_of (feed w)) with
  | Some road => update_traffic_with_lock clock road true w0
  | None =>
      match max_count_road (feed w) with
      | Some road => update_traffic_with_lock clock road false w0
      | None => (Exc ValueError, w0)
      end
  end.
Proof.
  intros N. unfold process_and_update_traffic, bind, modify.
  rewrite update_traffic_light_eq. simpl.
  change (road_data (with_road_data_bound w true)) with (Some (feed w)).
  cbv beta iota.
  destruct (any_emergency (road_counts_of (feed w))) eqn:E.
  - rewrite emergency_scan_eq. apply any_emergency_road in E as [r ->].
    reflexivity.
  - destruct (emergency_road (road_counts_of (feed w))) as [r|] eqn:Er.
    + assert (any_emergency (road_counts_of (feed w)) = true)
        by (apply any_emergency_road; eauto). congruence.
    + destruct (max_count_road (feed w)) as [m|] eqn:Em; [|reflexivity].
      apply density_loop_eq; [exact N|now apply max_count_road_In].
Qed.

End Tick.

(** ** Reachable states know their roads *)

Lemma known_bound w : known w -> known (with_road_data_bound w true).
Proof. intros [F R B N FN]. split; simpl; auto. Qed.

Lemma keys_road_counts_of rd :
  NoDup (keys rd) -> keys (road_counts_of rd) = keys rd.
Proof. intros N. rewrite road_counts_of_map by assumption. apply keys_map. Qed.

Lemma tick_known clock w :
  known w -> known (snd (process_and_update_traffic clock w)).
Proof.
  intros K. pose proof (known_bound _ K) as K0.
  rewrite tick_eq by apply (feed_nodup _ K). cbv zeta.
  destruct (emergency_road (road_counts_of (feed w))) as [r|] eqn:Er.
  - eapply known_outcome; [exact K0| |reflexivity|apply uwl_outcome].
    apply emergency_road_In in Er.
    now rewrite keys_road_counts_of in Er by apply (feed_nodup _ K).
  - destruct (max_count_road (feed w)) as [m|] eqn:Em; [|exact K0].
    eapply known_outcome; [exact K0| |reflexivity|apply uwl_outcome].
    apply max_count_road_In; [apply (feed_nodup _ K)|exact Em].
Qed.

Lemma sweep_known clock w :
  known w -> known (snd (check_and_open_overdue_road clock w)).
Proof.
  intros K. destruct (sweep_outcome clock w) as [L|(new & Hin & O)].
  - eapply known_only_locks; eauto.
  - eapply known_outcome; [exact K| | |exact O].
    + now apply (recorded_fed _ K).
    + apply (recorded_bound _ K). intros E. rewrite E in Hin. destruct Hin.
Qed.

Lemma initial_known caps : known (initial caps).
Proof.
  split; simpl; try tauto; try constructor.
Qed.

Lemma run_op_known clock o w :
  known w -> admissible w o -> known (snd (run_op clock o w)).
Proof.
  intros K A. destruct o; simpl.
  - destruct K as [F R B N FN]. split; assumption.
  - destruct K as [F R B N FN]. simpl in A. split; simpl; auto.
    + intros r Hr. apply keys_set_In in Hr as [->|Hr]; auto.
    + intros r Hr. apply keys_set_In. auto.
    + now apply NoDup_keys_set.
  - now apply tick_known.
  - now apply sweep_known.
Qed.

Lemma reachable_known clock caps w : reachable clock caps w -> known w.
Proof.
  induction 1 as [|w o _ IH A].
  - apply initial_known.
  - now apply run_op_known.
Qed.

Lemma reachable_run clock caps os w :
  reachable clock caps w ->
  (forall w' o, reachable clock caps w' -> In o os -> admissible w' o) ->
  reachable clock caps (run clock os w).
Proof.
  revert w. induction os as [|o os IH]; intros w R A; simpl; [exact R|].
  apply IH.
  - apply reach_step; [exact R|]. apply A; [exact R|now left].
  - intros w' o' R' Hin. apply A; [exact R'|now right].
Qed.

Lemma outcome_keys road w w' :
  outcome road w w' -> keys (traffic_lights w') = keys (traffic_lights w).
Proof.
  intros [L|w1 t m L Hm E|w1 t em m L Hm Hin Hc E].
  - now destruct L as (_ & K & _).
  - destruct L as (_ & K & _). now subst w'.
  - destruct L as (_ & K & _). subst w'.
    destruct (switched_fields w1 road t em m) as (_ & _ & -> & _).
    now rewrite keys_set_present.
Qed.

Lemma run_op_keys clock o w :
  keys (traffic_lights (snd (run_op clock o w))) = keys (traffic_lights w).
Proof.
  destruct o; simpl; try reflexivity.
  - unfold process_and_update_traffic, bind, modify.
    rewrite update_traffic_light_eq.
    set (w0 := with_road_data_bound w true).
    change (keys (traffic_lights w)) with (keys (traffic_lights w0)).
    generalize w0. clear w0. intros w0.
    destruct (road_data w0) as [rd|]; [|reflexivity].
    destruct (any_emergency (road_counts_of rd)).
    + rewrite emergency_scan_eq.
      destruct (emergency_road (road_counts_of rd)); [|reflexivity].
      eapply outcome_keys, uwl_outcome.
    + destruct (max_count_road rd) as [m|]; [|reflexivity].
      apply (for_each_preserves
               (fun w1 => keys (traffic_lights w1) = keys (traffic_lights w0)));
        [|reflexivity].
      intros road w1 K1. destruct (String.eqb road m); [|exact K1].
      rewrite <- K1. eapply outcome_keys, uwl_outcome.
  - destruct (sweep_outcome clock w) as [L|(new & _ & O)].
    + now destruct L as (_ & K & _).
    + eapply outcome_keys; eauto.
Qed.

Lemma reachable_keys clock caps w r :
  reachable clock caps w -> In r (keys (traffic_lights w)) <-> In r caps.
Proof.
  induction 1 as [|w o _ IH _].
  - destruct (all_closed_fold caps [] (NoDup_nil _)) as (_ & _ & K);
      [discriminate|].
    unfold initial; simpl. rewrite K. simpl. tauto.
  - now rewrite run_op_keys.
Qed.

Lemma reachable_ops clock caps os w :
  reachable clock caps w -> forallb (configured caps) os = true ->
  reachable clock caps (run clock os w).
Proof.
  intros R F. apply reachable_run; [exact R|].
  intros w' o R' Hin. rewrite forallb_forall in F. specialize (F o Hin).
  destruct o; simpl; auto.
  apply (reachable_keys _ _ _ _ R'). simpl in F.
  apply existsb_exists in F as (x & Hx & Ex).
  apply String.eqb_eq in Ex. now subst.
Qed.

Lemma ticking_monotone step : 0 <= step -> monotone (ticking step).
Proof. intros Hs i j Hij. unfold ticking. nia. Qed.

(** ** C1: mutual exclusion *)

Lemma mutual_exclusion_witness :
  at_most_one_open (snd (run_op (ticking 1) Tick first_frame)).
Proof.
  apply (mutual_exclusion (ticking 1) two_roads first_frame Tick).
  - apply reachable_ops; [apply reach_initial|reflexivity].
  - now left.
  - vm_compute. reflexivity.
Defined.

(** ** C2: the emergency scan *)

(** The scan stops at the first road that carries any emergency vehicle. *)
Lemma emergency_tick_eq clock w road :
  emergency_road (road_counts_of (feed w)) = Some road ->
  process_and_update_traffic clock w =
  update_traffic_with_lock clock road true (with_road_data_bound w true).
Proof.
  intros Er. unfold process_and_update_traffic, bind, modify.
  rewrite update_traffic_light_eq.
  change (road_data (with_road_data_bound w true)) with (Some (feed w)).
  cbv beta iota.
  assert (E : any_emergency (road_counts_of (feed w)) = true)
    by (apply any_emergency_road; eauto).
  rewrite E, emergency_scan_eq, Er. reflexivity.
Qed.

(** C2. With a police car on [Road1], an ambulance on [Road2] and a fire
    engine on [Road3], all closed, the tick opens [Road1], the first road of
    the scan, and leaves the road of the ambulance closed. *)
Theorem emergency_scan_opens_first_road :
  get (feed three_emergencies) "Road2" = Some (mkDatum one_ambulance 1) /\
  emergency_road (road_counts_of (feed three_emergencies)) = Some "Road1" /\
  exists w',
    process_and_update_traffic (ticking 1) three_emergencies = (Val tt, w') /\
    light w' "Road1" = Some true /\
    light w' "Road2" = Some false /\
    light w' "Road3" = Some false.
Proof.
  split; [reflexivity|]. split; [reflexivity|].
  eexists. split; [vm_compute; reflexivity|].
  repeat split; reflexivity.
Qed.

(** ** C10: the tick and the empty snapshot dictionary *)

Lemma fold_set_nonempty {A B} (f : A -> B) (rd : dict A) (acc : dict B) :
  acc <> [] \/ rd <> [] ->
  fold_left (fun a kv => set a (fst kv) (f (snd kv))) rd acc <> [].
Proof.
  revert acc. induction rd as [|kv rd IH]; intros acc H; simpl.
  - destruct H; congruence.
  - apply IH. left. destruct acc as [|[k v] acc]; simpl; [discriminate|].
    destruct (String.eqb k (fst kv)); discriminate.
Qed.

Lemma max_count_road_Some rd :
  rd <> [] -> exists m, max_count_road rd = Some m.
Proof.
  intros H. unfold max_count_road, keyed_totals.
  assert (Ht : total_counts_of (road_counts_of rd) <> []).
  { apply fold_set_nonempty. right. apply fold_set_nonempty. now right. }
  destruct (total_counts_of (road_counts_of rd)); [congruence|].
  simpl. eauto.
Qed.

Lemma for_each_returns {A} (body : A -> M unit) xs :
  (forall x w, fst (body x w) = Val tt) ->
  forall w, fst (for_each xs body w) = Val tt.
Proof.
  intros Hb. induction xs as [|x xs IH]; intros w; simpl; [reflexivity|].
  unfold bind. specialize (Hb x w).
  destruct (body x w) as [[[]|e] w1]; simpl in *; [apply IH|discriminate].
Qed.

(** C10. [update_traffic_light] returns normally exactly when the snapshot
    dictionary is [None] or non-empty: on the empty dictionary it raises the
    [ValueError] of [max] on an empty collection and changes nothing, and on
    [None] it returns at once without any transition. *)
Theorem tick_needs_snapshot clock w :
  (road_data w = Some [] ->
   any_emergency (road_counts_of []) = false /\
   update_traffic_light clock w = (Exc ValueError, w)) /\
  (road_data w = None -> update_traffic_light clock w = (Val tt, w)) /\
  (fst (update_traffic_light clock w) = Val tt <-> road_data w <> Some []).
Proof.
  assert (Hempty : road_data w = Some [] ->
                   update_traffic_light clock w = (Exc ValueError, w)).
  { intros E. rewrite update_traffic_light_eq, E. reflexivity. }
  split; [auto|]. split.
  - intros E. rewrite update_traffic_light_eq, E. reflexivity.
  - split.
    + intros Hv E. rewrite (Hempty E) in Hv. discriminate.
    + intros Hne. rewrite update_traffic_light_eq.
      destruct (road_data w) as [rd|]; [|reflexivity].
      destruct (any_emergency (road_counts_of rd)).
      * rewrite emergency_scan_eq.
        destruct (emergency_road (road_counts_of rd)); [|reflexivity].
        apply uwl_returns.
      * destruct (max_count_road_Some rd) as [m ->];
          [intros ->; now apply Hne|].
        apply for_each_returns. intros road w1.
        destruct (String.eqb road m); [apply uwl_returns|reflexivity].
Qed.

Lemma tick_needs_snapshot_witness :
  run_op (ticking 1) Tick (initial two_roads) =
  (Exc ValueError, with_road_data_bound (initial two_roads) true).
Proof.
  destruct (tick_needs_snapshot (ticking 1)
              (with_road_data_bound (initial two_roads) true))
    as [H _].
  destruct (H eq_refl) as [_ E]. exact E.
Defined.

(** ** C5: an emergency on the road that is already open *)

(** [Road1] is open for its ambulance; the next tick selects it again and
    leaves the record and [last_open_time_em] at their old values, below
    every clock reading the call could have taken. *)
Lemma ambulance_served_again :
  emergency_road (road_counts_of (feed ambulance_served)) = Some "Road1" /\
  light ambulance_served "Road1" = Some true /\
  exists w',
    process_and_update_traffic (ticking 50) ambulance_served = (Val tt, w') /\
    reads w' = reads ambulance_served /\
    entry w' "Road1" = Some (mkEntry 1700000000 "Road1") /\
    last_open_time_em w' = 1700000050 /\
    forall n, (reads ambulance_served <= n)%nat ->
              last_open_time_em w' < ticking 50 n /\
              1700000000 < ticking 50 n.
Proof.
  split; [reflexivity|]. split; [reflexivity|].
  eexists. split; [vm_compute; reflexivity|].
  repeat split; try reflexivity.
  - change (1700000050 < ticking 50 n). change (2 <= n)%nat in H.
    unfold ticking. lia.
  - change (2 <= n)%nat in H. unfold ticking. lia.
Qed.

(** C5 (amended). A tick whose emergency scan stops at a road that is
    already open does nothing: no light changes, no record is written,
    [last_open_time_em] keeps its value and the clock is not even read; the
    state is the one before the call with the snapshot dictionary bound. *)
Theorem emergency_on_open_road_is_noop clock w road :
  emergency_road (road_counts_of (feed w)) = Some road ->
  light w road = Some true ->
  process_and_update_traffic clock w =
  (Val tt, with_road_data_bound w true).
Proof.
  intros Er Hl. rewrite (emergency_tick_eq _ _ _ Er).
  now apply uwl_open.
Qed.

Lemma emergency_on_open_road_is_noop_witness :
  process_and_update_traffic (ticking 50) ambulance_served =
  (Val tt, with_road_data_bound ambulance_served true).
Proof.
  apply (emergency_on_open_road_is_noop (ticking 50) ambulance_served "Road1");
    reflexivity.
Defined.

(** ** C9: the bookkeeping invariant *)

(** In the first tick, the guard and the locking loop lead to a state that
    satisfies the invariant; [unlock_traffic] then returns a state with
    [Road1] open and no record. *)
Lemma unlock_alone_breaks_bookkeeping :
  density_guard (ticking 1) "Road1" false
    (with_road_data_bound first_frame true) = (Val true, before_first_unlock) /\
  lock_others "Road1" before_first_unlock = (Val tt, before_first_unlock) /\
  bookkeeping_inv before_first_unlock /\
  exists w', unlock_traffic "Road1" before_first_unlock = (Val tt, w') /\
             light w' "Road1" = Some true /\
             last_open_data w' = [] /\
             ~ bookkeeping_inv w'.
Proof.
  split; [reflexivity|]. split; [reflexivity|]. split.
  - assert (C : consistent first_frame).
    { apply (reachable_consistent (ticking 1) two_roads).
      apply reachable_ops; [apply reach_initial|reflexivity]. }
    destruct C as [_ R S _]. split; assumption.
  - eexists. split; [reflexivity|]. repeat split.
    intros [R _]. exact (R "Road1" eq_refl).
Qed.

Lemma unlock_traffic_self_keyed r w :
  self_keyed w -> self_keyed (snd (unlock_traffic r w)).
Proof.
  intros S. rewrite unlock_traffic_eq.
  destruct (light w r) as [[]|]; exact S.
Qed.

Lemma unlock_traffic_recorded r w :
  In r (keys (last_open_data w)) -> open_recorded w ->
  open_recorded (snd (unlock_traffic r w)).
Proof.
  intros Hin R. rewrite unlock_traffic_eq.
  destruct (light w r) as [[]|]; try exact R.
  intros r' Hr'. unfold light in Hr'. simpl in *.
  destruct (string_dec r r') as [<-|Hne]; [exact Hin|].
  rewrite get_set_other in Hr' by assumption. now apply R.
Qed.

(** C9 (amended). Every state reached from the initial all-closed state by
    ticks, sweeps and frames satisfies the bookkeeping invariant (every open
    road has a record, every record names its own key), and so does the
    state after one more such operation.  [lock_traffic] keeps the
    invariant; [unlock_traffic] keeps the records self-keyed, and keeps the
    whole invariant when the road it opens has a record (the tick and the
    sweep write that record right after the call).  Consequently the loop
    that locks every recorded road whose [open_road] differs from the target
    leaves no road other than the target open. *)
Theorem bookkeeping_invariant clock video_caps w :
  reachable clock video_caps w ->
  bookkeeping_inv w /\
  (forall o, admissible w o -> bookkeeping_inv (snd (run_op clock o w))) /\
  (forall r, bookkeeping_inv (snd (lock_traffic r w))) /\
  (forall r, self_keyed (snd (unlock_traffic r w))) /\
  (forall r, In r (keys (last_open_data w)) ->
             bookkeeping_inv (snd (unlock_traffic r w))) /\
  (forall target w', lock_others target w = (Val tt, w') ->
     forall r, r <> target -> light w' r <> Some true).
Proof.
  intros R. pose proof (reachable_consistent _ _ _ R) as C.
  assert (Hinv : forall w0, consistent w0 -> bookkeeping_inv w0).
  { intros w0 [_ R0 S0 _]. now split. }
  split; [now apply Hinv|]. split; [|split; [|split; [|split]]].
  - intros o A. apply Hinv. now apply run_op_consistent.
  - intros r. apply Hinv. eapply consistent_only_locks; [exact C|].
    apply lock_traffic_only_locks.
  - intros r. apply unlock_traffic_self_keyed. apply C.
  - intros r Hin. split.
    + apply unlock_traffic_recorded; [exact Hin|apply C].
    + apply unlock_traffic_self_keyed. apply C.
  - intros target w' Hl r Hne Hopen.
    pose proof (lock_others_only_locks target w) as L. rewrite Hl in L.
    simpl in L. pose proof (only_locks_open _ _ _ L Hopen) as Ho.
    destruct (In_keys_get _ _ (cons_recorded _ C _ Ho)) as [e He].
    assert (Hroad : open_road e <> target).
    { rewrite (cons_self_keyed _ C _ _ He). exact Hne. }
    rewrite (lock_others_Val _ _ _ Hl r e He Hroad) in Hopen. discriminate.
Qed.

Lemma bookkeeping_invariant_witness :
  bookkeeping_inv (snd (run_op (ticking 1) Tick first_frame)).
Proof.
  refine (proj1 (proj2 (bookkeeping_invariant (ticking 1) two_roads
                          first_frame _)) Tick I).
  apply reachable_ops; [apply reach_initial|reflexivity].
Defined.

(** ** C3 and C8: the guards of a density switch *)

(** [Road1] was opened by a density switch at 1700000002; the next tick, all
    of whose clock readings are less than 10 later, closes it for [Road2]. *)
Lemma minimum_green_not_enforced :
  emergency_road (road_counts_of (feed busier_neighbour)) = None /\
  light busier_neighbour "Road1" = Some true /\
  entry busier_neighbour "Road1" = Some (mkEntry 1700000002 "Road1") /\
  exists w',
    process_and_update_traffic (ticking 1) busier_neighbour = (Val tt, w') /\
    light w' "Road1" = Some false /\
    light w' "Road2" = Some true /\
    forall n, (n < reads w')%nat -> ~ (ticking 1 n - 1700000002 >= 10).
Proof.
  split; [reflexivity|]. split; [reflexivity|]. split; [reflexivity|].
  eexists. split; [vm_compute; reflexivity|].
  split; [reflexivity|]. split; [reflexivity|].
  intros n Hn. change (n < 6)%nat in Hn. unfold ticking. lia.
Qed.

(** C3 (amended). Whenever a density call of [update_traffic_with_lock]
    changes a light, the selected road was closed, the first clock reading
    of the call is at least 10 after the time in the selected road's own
    record (0 when it has none) and the second is at least 10 after
    [last_open_time_em]; the age of the record of the road that gets closed
    is not looked at. *)
Theorem density_switch_guards clock road w :
  traffic_lights (snd (update_traffic_with_lock clock road false w))
    <> traffic_lights w ->
  light w road = Some false /\
  clock (reads w) - last_time_or_0 w road >= 10 /\
  clock (S (reads w)) - last_open_time_em w >= 10.
Proof.
  intros Hch. destruct (light w road) as [[]|] eqn:El.
  - rewrite uwl_open in Hch by assumption. now contradiction Hch.
  - rewrite uwl_density_closed in Hch by assumption.
    destruct (clock (reads w) - last_time_or_0 w road >=? 10) eqn:E1;
      [|now contradiction Hch].
    destruct (clock (S (reads w)) - last_open_time_em w >=? 10) eqn:E2;
      [|now contradiction Hch].
    apply Z.geb_le in E1, E2. repeat split; lia.
  - rewrite uwl_density_unknown in Hch by assumption. now contradiction Hch.
Qed.

Lemma density_switch_guards_witness :
  light busier_neighbour "Road2" = Some false /\
  ticking 1 3 - 0 >= 10 /\ ticking 1 4 - 0 >= 10.
Proof.
  apply (density_switch_guards (ticking 1) "Road2"
           (with_road_data_bound busier_neighbour true)).
  vm_compute. discriminate.
Defined.

(** ** C4: a selected road without a record *)

Lemma lock_others_reads road w : reads (snd (lock_others road w)) = reads w.
Proof.
  unfold lock_others, bind, gets.
  apply (for_each_preserves (fun w1 => reads w1 = reads w)); [|reflexivity].
  intros prev w1 E. rewrite <- E. unfold lock_previous, bind, subscript.
  destruct (get (last_open_data w1) prev) as [e|]; [|reflexivity].
  destruct (negb _); [|reflexivity].
  rewrite lock_traffic_eq. now destruct (light w1 prev) as [[]|].
Qed.

(** The first density tick selects [Road1], which has no record, and opens
    it in the same call. *)
Lemma unrecorded_road_opens_at_once :
  emergency_road (road_counts_of (feed first_frame)) = None /\
  max_count_road (feed first_frame) = Some "Road1" /\
  entry first_frame "Road1" = None /\
  light first_frame "Road1" = Some false /\
  exists w',
    process_and_update_traffic (ticking 1) first_frame = (Val tt, w') /\
    light w' "Road1" = Some true /\
    traffic_lights w' <> traffic_lights first_frame.
Proof.
  repeat (split; [reflexivity|]).
  eexists. split; [vm_compute; reflexivity|].
  split; [reflexivity|]. vm_compute. discriminate.
Qed.

Lemma after_locking_switches clock road em extra w :
  known w -> consistent w -> In road (keys (traffic_lights w)) ->
  exists w1,
    lock_others road w = (Val tt, w1) /\
    after_locking clock road em extra w =
    (Val tt, switched w1 road (clock (reads w)) (em w1)
                      (extra + S (reads w))) /\
    light (switched w1 road (clock (reads w)) (em w1) (extra + S (reads w)))
          road = Some true /\
    forall r, r <> road ->
      light (switched w1 road (clock (reads w)) (em w1)
                      (extra + S (reads w))) r <> Some true.
Proof.
  intros K C Hin.
  destruct (lock_others_total road w) as [w1 Hl].
  { intros r Hr. apply (feed_configured _ K), (recorded_fed _ K), Hr. }
  pose proof (lock_others_reads road w) as Hr. rewrite Hl in Hr. simpl in Hr.
  pose proof (after_locking_consistent clock road em extra w C) as C'.
  unfold after_locking in *. rewrite Hl in *. rewrite Hr in *. simpl in C'.
  exists w1. split; [reflexivity|]. split; [reflexivity|].
  assert (Ho : light (switched w1 road (clock (reads w)) (em w1)
                                (extra + S (reads w))) road = Some true).
  { unfold light.
    destruct (switched_fields w1 road (clock (reads w)) (em w1)
                (extra + S (reads w))) as (_ & _ & -> & _).
    apply get_set_same. }
  split; [exact Ho|].
  intros r Hne Hopen. apply Hne. exact (cons_exclusive _ C' _ _ Hopen Ho).
Qed.

(** C4 (amended). When the density branch selects a road without a record,
    the missing time reads as 0.  The tick returns normally, and: when the
    first clock reading is at least 10 and the second at least 10 after
    [last_open_time_em], it switches at once, leaving the selected road open
    and every other road closed, writing the record with the third reading
    and resetting [last_open_time_em]; otherwise it changes no light and
    writes no record. *)
Theorem unrecorded_road_density clock video_caps w road :
  reachable clock video_caps w ->
  emergency_road (road_counts_of (feed w)) = None ->
  max_count_road (feed w) = Some road ->
  entry w road = None ->
  exists w',
    process_and_update_traffic clock w = (Val tt, w') /\
    (clock (reads w) >= 10 ->
     clock (S (reads w)) - last_open_time_em w >= 10 ->
     light w' road = Some true /\
     (forall r, r <> road -> light w' r <> Some true) /\
     entry w' road = Some (mkEntry (clock (S (S (reads w)))) road) /\
     last_open_time_em w' = 0) /\
    (clock (reads w) < 10 \/
     clock (S (reads w)) - last_open_time_em w < 10 ->
     traffic_lights w' = traffic_lights w /\
     last_open_data w' = last_open_data w /\
     last_open_time_em w' = last_open_time_em w).
Proof.
  intros R Er Em He.
  pose proof (reachable_known _ _ _ R) as K.
  pose proof (reachable_consistent _ _ _ R) as C.
  rewrite tick_eq by apply (feed_nodup _ K). cbv zeta. rewrite Er, Em.
  set (w0 := with_road_data_bound w true).
  assert (Hin : In road (keys (traffic_lights w))).
  { apply (feed_configured _ K).
    apply max_count_road_In; [apply (feed_nodup _ K)|exact Em]. }
  assert (Hl : light w0 road = Some false).
  { destruct (In_keys_get _ _ Hin) as [[] Hb]; [|exact Hb].
    apply (cons_recorded _ C) in Hb.
    apply In_keys_get in Hb as [e Hb]. unfold entry in He. congruence. }
  rewrite uwl_density_closed by exact Hl.
  assert (H0 : last_time_or_0 w0 road = 0).
  { unfold last_time_or_0. unfold entry in He. simpl. now rewrite He. }
  rewrite H0, Z.sub_0_r.
  change (reads w0) with (reads w).
  change (last_open_time_em w0) with (last_open_time_em w).
  destruct (clock (reads w) >=? 10) eqn:E1.
  - destruct (clock (S (reads w)) - last_open_time_em w >=? 10) eqn:E2.
    + set (wg := with_reads w0 (S (S (reads w)))).
      destruct (after_locking_switches clock road (fun _ => 0) 0%nat wg)
        as (w1 & Hlock & -> & Ho & Hothers).
      * apply known_only_locks with (w := w0);
          [now apply known_bound|apply only_locks_with_reads; simpl; lia].
      * eapply consistent_ext; [| |exact C]; reflexivity.
      * exact Hin.
      * eexists. split; [reflexivity|]. split.
        -- intros _ _. split; [exact Ho|]. split; [exact Hothers|].
           pose proof (lock_others_only_locks road wg) as L.
           rewrite Hlock in L. destruct L as ((_ & _ & Ed & _) & _).
           simpl in Ed. unfold entry.
           destruct (switched_fields w1 road (clock (reads wg)) 0
                       (0 + S (reads wg))) as (_ & _ & _ & -> & _ & -> & _).
           rewrite get_set_same. split; reflexivity.
        -- apply Z.geb_le in E1, E2. intros [H|H]; lia.
    + eexists. split; [reflexivity|]. split.
      * intros _ H. rewrite Z.geb_leb, Z.leb_gt in E2. lia.
      * intros _. repeat split.
  - eexists. split; [reflexivity|]. split.
    + intros H. rewrite Z.geb_leb, Z.leb_gt in E1. lia.
    + intros _. repeat split.
Qed.

Lemma unrecorded_road_density_witness :
  exists w',
    process_and_update_traffic (ticking 1) first_frame = (Val tt, w') /\
    light w' "Road1" = Some true /\
    entry w' "Road1" = Some (mkEntry (ticking 1 2) "Road1").
Proof.
  destruct (unrecorded_road_density (ticking 1) two_roads first_frame "Road1")
    as (w' & Ht & Hswitch & _).
  - apply reachable_ops; [apply reach_initial|reflexivity].
  - reflexivity.
  - reflexivity.
  - reflexivity.
  - exists w'. split; [exact Ht|].
    destruct Hswitch as (Ho & _ & He & _).
    + vm_compute. discriminate.
    + vm_compute. discriminate.
    + split; [exact Ho|exact He].
Defined.

(** ** C7: one overdue road per sweep *)

Lemma outcome_display road w w' :
  outcome road w w' ->
  (List.length (display w') <= S (List.length (display w)))%nat.
Proof.
  intros [L|w1 t m L Hm E|w1 t em m L Hm Hin Hc E].
  - destruct L as ((_ & _ & _ & _ & _ & -> & _) & _). lia.
  - destruct L as ((_ & _ & _ & _ & _ & <- & _) & _). subst w'. simpl. lia.
  - destruct L as ((_ & _ & _ & _ & _ & <- & _) & _). subst w'.
    unfold switched, notified. simpl. destruct (gui w1); simpl; lia.
Qed.

(** C7. A sweep runs the body of its scan at most once: the call is one run
    of the body when some recorded road is at least 120 old at the time read
    first, however many such roads there are, and nothing but that clock
    reading otherwise; the display is notified at most once.  When the
    eligible set computed by the body is empty, the sweep returns without
    changing a light, a record or the display. *)
Theorem sweep_handles_one_overdue_road clock w :
  check_and_open_overdue_road clock w =
    (if existsb (overdue (last_open_data w) (clock (reads w)))
                (keys (last_open_data w))
     then open_most_cars clock (clock (reads w)) (with_reads w (S (reads w)))
     else (Val tt, with_reads w (S (reads w)))) /\
  (List.length (display (snd (check_and_open_overdue_road clock w)))
     <= S (List.length (display w)))%nat /\
  (fst (eligible_roads_from clock (last_open_data w) (road_data w)
          (S (reads w)) (keys (last_open_data w))) = Val [] ->
   fst (check_and_open_overdue_road clock w) = Val tt /\
   traffic_lights (snd (check_and_open_overdue_road clock w))
     = traffic_lights w /\
   last_open_data (snd (check_and_open_overdue_road clock w))
     = last_open_data w /\
   display (snd (check_and_open_overdue_road clock w)) = display w).
Proof.
  split; [apply check_and_open_overdue_road_eq|]. split.
  - destruct (sweep_outcome clock w) as [L|(new & _ & O)].
    + destruct L as ((_ & _ & _ & _ & _ & -> & _) & _). lia.
    + eapply outcome_display; eauto.
  - intros Hel. rewrite check_and_open_overdue_road_eq.
    destruct (existsb _ _); [|repeat split].
    rewrite open_most_cars_eq. simpl.
    change (road_data (with_reads w (S (reads w)))) with (road_data w).
    destruct (eligible_roads_from clock _ _ _ _) as [[el|e] m];
      simpl in Hel; [|discriminate].
    injection Hel as ->. repeat split.
Qed.

Lemma sweep_handles_one_overdue_road_witness :
  existsb (overdue (last_open_data jam_without_cars)
                   (ticking 200 (reads jam_without_cars)))
          (keys (last_open_data jam_without_cars)) = true /\
  fst (check_and_open_overdue_road (ticking 200) jam_without_cars) = Val tt /\
  traffic_lights (snd (check_and_open_overdue_road (ticking 200)
                         jam_without_cars))
    = traffic_lights jam_without_cars.
Proof.
  split; [reflexivity|].
  destruct (sweep_handles_one_overdue_road (ticking 200) jam_without_cars)
    as (_ & _ & H).
  destruct H as (Hv & Hl & _); [reflexivity|]. split; assumption.
Defined.

(** ** C6: the starvation override *)


Lemma eligible_roads_from_known clock d f n ks :
  (forall k, In k ks -> In k (keys d)) ->
  (forall k, In k ks -> In k (keys f)) ->
  exists el m,
    eligible_roads_from clock d (Some f) n ks = (Val el, m) /\
    forall k, In k ks ->
      (forall i, (n <= i)%nat -> eligible_at d (Some f) (clock i) k = Val true)
      -> In k el.
Proof.
  revert n. induction ks as [|k ks IH]; intros n Hd Hf; simpl.
  - exists [], n. split; [reflexivity|]. intros k [].
  - destruct (IH (S n)) as (rest & m & -> & Hrest);
      [intros; apply Hd; now right|intros; apply Hf; now right|].
    destruct (In_keys_get _ _ (Hd k (or_introl eq_refl))) as [e He].
    destruct (In_keys_get _ _ (Hf k (or_introl eq_refl))) as [x Hx].
    assert (Hb : exists b, eligible_at d (Some f) (clock n) k = Val b).
    { unfold eligible_at. rewrite He, Hx. destruct (_ >=? 10); eauto. }
    destruct Hb as [b Hb]. rewrite Hb.
    exists (if b then k :: rest else rest), m. split; [reflexivity|].
    intros k' [<-|Hin] Hall.
    + specialize (Hall n (le_n n)). rewrite Hb in Hall.
      injection Hall as ->. now left.
    + assert (In k' rest) by (apply Hrest; [exact Hin|intros; apply Hall; lia]).
      destruct b; [now right|assumption].
Qed.

Lemma open_road_now_switches ct new w :
  known w -> consistent w -> In new (keys (traffic_lights w)) ->
  exists w1,
    open_road_now ct new w =
    (Val tt, switched w1 new ct (last_open_time_em w1) (reads w1)) /\
    light (switched w1 new ct (last_open_time_em w1) (reads w1)) new
      = Some true /\
    entry (switched w1 new ct (last_open_time_em w1) (reads w1)) new
      = Some (mkEntry ct new) /\
    forall r, r <> new ->
      light (switched w1 new ct (last_open_time_em w1) (reads w1)) r
        <> Some true.
Proof.
  intros K C Hin.
  destruct (lock_others_total new w) as [w1 Hl].
  { intros r Hr. apply (feed_configured _ K), (recorded_fed _ K), Hr. }
  pose proof (open_road_now_consistent ct new w C) as C'.
  pose proof (lock_others_only_locks new w) as L. rewrite Hl in L.
  destruct L as (_ & Hk & _). simpl in Hk.
  unfold open_road_now in *. rewrite Hl in *.
  rewrite <- Hk in Hin. apply In_keys_get in Hin as [b Hb].
  unfold light at 1. unfold light at 1 in C'. rewrite Hb in *. simpl in C'.
  exists w1. split; [reflexivity|].
  destruct (switched_fields w1 new ct (last_open_time_em w1) (reads w1))
    as (_ & _ & El & Ed & _).
  assert (Ho : light (switched w1 new ct (last_open_time_em w1) (reads w1))
                     new = Some true).
  { unfold light. rewrite El. apply get_set_same. }
  split; [exact Ho|]. split.
  - unfold entry. rewrite Ed. apply get_set_same.
  - intros r Hne Hopen. apply Hne.
    exact (cons_exclusive _ C' _ _ Hopen Ho).
Qed.




(** ** C8: the cooldown after an emergency *)

Lemma sweep_em clock w :
  last_open_time_em (snd (check_and_open_overdue_road clock w))
  = last_open_time_em w.
Proof.
  rewrite check_and_open_overdue_road_eq.
  destruct (existsb _ _); [|reflexivity].
  rewrite open_most_cars_eq.
  destruct (eligible_roads_from clock _ _ _ _) as [[el|e] m]; [|reflexivity].
  destruct (most_cars _ el) as [new|]; [|reflexivity].
  unfold open_road_now.
  pose proof (lock_others_only_locks new
                (with_reads (with_reads w (S (reads w))) m)) as L.
  destruct (lock_others new _) as [[[]|e] w1];
    destruct L as ((_ & _ & _ & _ & Eem & _) & _); simpl in *;
    try exact Eem.
  destruct (light w1 new); simpl; [|exact Eem].
  destruct (switched_fields w1 new (clock (reads w))
              (last_open_time_em w1) (reads w1))
    as (_ & _ & _ & _ & _ & -> & _).
  exact Eem.
Qed.

Lemma after_locking_em clock road em extra w :
  let w' := snd (after_locking clock road em extra w) in
  last_open_time_em w' = last_open_time_em w \/
  exists w1, only_locks w w1 /\ last_open_time_em w' = em w1.
Proof.
  unfold after_locking.
  pose proof (lock_others_only_locks road w) as L.
  destruct (lock_others road w) as [[[]|e] w1]; simpl in *.
  - right. exists w1. split; [exact L|].
    now destruct (switched_fields w1 road (clock (reads w1)) (em w1)
                    (extra + S (reads w1)))
      as (_ & _ & _ & _ & _ & -> & _).
  - left. now destruct L as ((_ & _ & _ & _ & Eem & _) & _).
Qed.

(** The three things a call can do to [last_open_time_em]: leave it, set it
    to a later clock reading (emergency), or reset it after the cooldown
    test has passed (density). *)
Lemma uwl_em clock road h w :
  let w' := snd (update_traffic_with_lock clock road h w) in
  last_open_time_em w' = last_open_time_em w \/
  (exists i, (reads w <= i)%nat /\ last_open_time_em w' = clock i) \/
  (h = false /\ clock (S (reads w)) - last_open_time_em w >= 10).
Proof.
  destruct (light w road) as [[]|] eqn:El.
  - rewrite uwl_open by assumption. now left.
  - destruct h.
    + rewrite uwl_emergency_closed by assumption.
      destruct (after_locking_em clock road
                  (fun w1 => clock (S (reads w1))) 1%nat w)
        as [H|(w1 & L & H)]; [now left|].
      right; left. exists (S (reads w1)). split; [|exact H].
      destruct L as ((_ & _ & _ & _ & _ & _ & Hr) & _). lia.
    + rewrite uwl_density_closed by assumption.
      destruct (clock (reads w) - last_time_or_0 w road >=? 10);
        [|now left].
      destruct (clock (S (reads w)) - last_open_time_em w >=? 10) eqn:E;
        [|now left].
      right; right. split; [reflexivity|]. apply Z.geb_le in E. lia.
  - destruct h.
    + rewrite uwl_emergency_unknown by assumption. now left.
    + rewrite uwl_density_unknown by assumption. now left.
Qed.

Section Cooldown.

Variable clock : nat -> Z.
Variable T : Z.
Variables k0 N : nat.
Hypothesis past : forall i, (k0 <= i)%nat -> T <= clock i.
Hypothesis cooling : forall i, (i <= N)%nat -> clock i - T < 10.

Lemma uwl_cooling_down road h w :
  cooling_down T k0 N w ->
  cooling_down T k0 N (snd (update_traffic_with_lock clock road h w)).
Proof.
  intros [Hk Hc].
  pose proof (outcome_extends _ _ _ (uwl_outcome clock road h w))
    as (_ & _ & _ & Hr).
  split; [lia|]. intros HN.
  destruct (uwl_em clock road h w) as [E|[(i & Hi & E)|[_ E]]].
  - rewrite E. apply Hc. lia.
  - rewrite E. apply past. lia.
  - exfalso. assert (T <= last_open_time_em w) by (apply Hc; lia).
    pose proof (cooling (S (reads w))). lia.
Qed.

Lemma run_op_cooling_down o w :
  cooling_down T k0 N w -> cooling_down T k0 N (snd (run_op clock o w)).
Proof.
  intros Q. destruct o; simpl; try exact Q.
  - unfold process_and_update_traffic, bind, modify.
    rewrite update_traffic_light_eq.
    assert (Q0 : cooling_down T k0 N (with_road_data_bound w true)) by exact Q.
    revert Q0. generalize (with_road_data_bound w true). intros w0 Q0.
    destruct (road_data w0) as [rd|]; [|exact Q0].
    destruct (any_emergency (road_counts_of rd)).
    + rewrite emergency_scan_eq.
      destruct (emergency_road (road_counts_of rd)); [|exact Q0].
      now apply uwl_cooling_down.
    + destruct (max_count_road rd) as [m|]; [|exact Q0].
      apply for_each_preserves; [|exact Q0].
      intros road w1 Q1. destruct (String.eqb road m); [|exact Q1].
      now apply uwl_cooling_down.
  - destruct Q as [Hk Hc]. split.
    + destruct (sweep_outcome clock w) as [L|(new & _ & O)].
      * destruct L as ((_ & _ & _ & _ & _ & _ & Hr) & _). lia.
      * apply outcome_extends in O as (_ & _ & _ & Hr). lia.
    + rewrite sweep_em. intros HN. apply Hc.
      destruct (sweep_outcome clock w) as [L|(new & _ & O)].
      * destruct L as ((_ & _ & _ & _ & _ & _ & Hr) & _). lia.
      * apply outcome_extends in O as (_ & _ & _ & Hr). lia.
Qed.

Lemma run_cooling_down os w :
  cooling_down T k0 N w -> cooling_down T k0 N (run clock os w).
Proof.
  revert w. induction os as [|o os IH]; intros w Q; simpl; [exact Q|].
  apply IH. now apply run_op_cooling_down.
Qed.

End Cooldown.

(** An ambulance is served on [Road1] at time [T]; the clock is set back; a
    second ambulance, on [Road2], writes the earlier time into
    [last_open_time_em].  With both gone, the next tick makes the density
    call for [Road3] at a time 5 after [T], and the call opens [Road3]. *)
Lemma cooldown_lost_when_clock_steps_back :
  let w0 :=
    with_road_data_bound
      (run stepping_back [Ingest "Road1" one_ambulance 1]
           (initial three_roads)) true in
  let w := run stepping_back second_ambulance first_ambulance in
  light w0 "Road1" = Some false /\
  update_traffic_with_lock stepping_back "Road1" true w0
  = (Val tt, first_ambulance) /\
  light first_ambulance "Road1" = Some true /\
  last_open_time_em first_ambulance
  = stepping_back (pred (reads first_ambulance)) /\
  emergency_road (road_counts_of (feed w)) = None /\
  max_count_road (feed w) = Some "Road3" /\
  stepping_back (S (reads w)) - last_open_time_em first_ambulance = 5 /\
  light w "Road3" = Some false /\
  exists w',
    update_traffic_with_lock stepping_back "Road3" false w = (Val tt, w') /\
    run_op stepping_back Tick w = (Val tt, w') /\
    light w' "Road2" = Some false /\
    light w' "Road3" = Some true /\
    entry w' "Road3" = Some (mkEntry (stepping_back 6) "Road3") /\
    last_open_time_em w' = 0.
Proof.
  repeat (split; [vm_compute; reflexivity|]).
  eexists. split; [vm_compute; reflexivity|].
  repeat split; vm_compute; reflexivity.
Qed.

(** C8 (amended). Let an emergency call of [update_traffic_with_lock] open
    a closed road; it leaves in [last_open_time_em] the time [T] of its last
    clock reading.  Under a clock that never runs backwards, after any
    operations of the event loop, a density call whose cooldown reading is
    less than 10 after [T] is blocked, with or without an emergency vehicle
    in the feed: it returns without changing a light, a record,
    [last_open_time_em] or the display.  When the clock is set back in
    between, a later emergency call can write an earlier time, and the
    density call is not blocked. *)
Theorem post_emergency_cooldown clock road w0 w1 os s :
  monotone clock ->
  light w0 road = Some false ->
  update_traffic_with_lock clock road true w0 = (Val tt, w1) ->
  light w1 road = Some true ->
  last_open_time_em w1 = clock (pred (reads w1)) /\
  (clock (S (reads (run clock os w1))) - last_open_time_em w1 < 10 ->
   exists n,
     update_traffic_with_lock clock s false (run clock os w1)
     = (Val tt, with_reads (run clock os w1) n)).
Proof.
  intros Mono Hl Hcall Ho.
  rewrite uwl_emergency_closed in Hcall by exact Hl.
  unfold after_locking in Hcall.
  pose proof (lock_others_only_locks road w0) as L.
  destruct (lock_others road w0) as [[[]|e] w1'] eqn:El; simpl in L.
  2:{ injection Hcall as <-.
      pose proof (only_locks_closed _ _ _ L Hl) as Hc.
      unfold light in Ho, Hc. simpl in Ho. congruence. }
  injection Hcall as <-.
  destruct (switched_fields w1' road (clock (reads w1'))
              (clock (S (reads w1'))) (S (S (reads w1'))))
    as (_ & _ & _ & _ & _ & Eem & Er).
  rewrite Eem, Er. split; [reflexivity|].
  set (w1 := switched w1' road (clock (reads w1')) (clock (S (reads w1')))
                      (S (S (reads w1')))) in *.
  set (w := run clock os w1). intros Hcool.
  assert (Q : cooling_down (clock (S (reads w1'))) (S (S (reads w1')))
                           (S (reads w)) w).
  { apply run_cooling_down.
    - intros i Hi. apply Mono. lia.
    - intros i Hi.
      assert (clock i <= clock (S (reads w))) by (apply Mono; lia). lia.
    - split; [rewrite Er; simpl; lia|]. intros _. rewrite Eem. lia. }
  destruct Q as [_ Q]. specialize (Q (le_n _)).
  destruct (light w s) as [[]|] eqn:Es.
  - exists (reads w). rewrite uwl_open by assumption. now destruct w.
  - rewrite uwl_density_closed by assumption.
    destruct (clock (reads w) - last_time_or_0 w s >=? 10); [|eauto].
    destruct (clock (S (reads w)) - last_open_time_em w >=? 10) eqn:E;
      [|eauto].
    apply Z.geb_le in E. lia.
  - exists (reads w). rewrite uwl_density_unknown by assumption.
    now destruct w.
Qed.

Lemma post_emergency_cooldown_witness :
  last_open_time_em
    (snd (update_traffic_with_lock (ticking 1) "Road1" true
            (with_road_data_bound ambulance_arrives true)))
  = ticking 1 1 /\
  emergency_road
    (road_counts_of
       (feed (run (ticking 1) ambulance_gone
                (snd (update_traffic_with_lock (ticking 1) "Road1" true
                        (with_road_data_bound ambulance_arrives true))))))
  = None /\
  exists n,
    update_traffic_with_lock (ticking 1) "Road2" false
      (run (ticking 1) ambulance_gone
         (snd (update_traffic_with_lock (ticking 1) "Road1" true
                 (with_road_data_bound ambulance_arrives true))))
    = (Val tt,
       with_reads
         (run (ticking 1) ambulance_gone
            (snd (update_traffic_with_lock (ticking 1) "Road1" true
                    (with_road_data_bound ambulance_arrives true))))
         n).
Proof.
  destruct (post_emergency_cooldown (ticking 1) "Road1"
              (with_road_data_bound ambulance_arrives true)
              (snd (update_traffic_with_lock (ticking 1) "Road1" true
                      (with_road_data_bound ambulance_arrives true)))
              ambulance_gone "Road2")
    as [HT Hblocked].
  - apply ticking_monotone. lia.
  - reflexivity.
  - vm_compute. reflexivity.
  - reflexivity.
  - split; [exact HT|]. split; [reflexivity|].
    apply Hblocked. vm_compute. reflexivity.
Defined.

(** * Further properties of the code *)

(** ** [lock_traffic] and [unlock_traffic] *)

Lemma set_set {V} (d : dict V) k v v' : set (set d k v) k v' = set d k v'.
Proof.
  induction d as [|[k0 v0] d IH]; simpl.
  - now rewrite String.eqb_refl.
  - destruct (String.eqb_spec k0 k) as [->|Hne]; simpl.
    + now rewrite String.eqb_refl.
    + destruct (String.eqb_spec k0 k); [contradiction|]. now rewrite IH.
Qed.

(** X1. [lock_traffic] raises [KeyError] exactly on a road that is not a key
    of [traffic_lights], and then changes nothing.  On a known road it
    returns with that road closed, leaves every other light, the set of
    keys and every other field as they were, and a second call changes
    nothing more. *)
Theorem lock_traffic_behaviour road w :
  (light w road = None -> lock_traffic road w = (Exc KeyError, w)) /\
  (light w road <> None ->
   exists w',
     lock_traffic road w = (Val tt, w') /\
     light w' road = Some false /\
     (forall r, r <> road -> light w' r = light w r) /\
     keys (traffic_lights w') = keys (traffic_lights w) /\
     same_records w w' /\ reads w' = reads w /\
     lock_traffic road w' = (Val tt, w')).
Proof.
  split.
  - intros E. now rewrite lock_traffic_eq, E.
  - intros Hk. rewrite lock_traffic_eq.
    destruct (light w road) as [[]|] eqn:E; [| |contradiction].
    + eexists. split; [reflexivity|].
      assert (Hc : light (with_traffic_lights w
                            (set (traffic_lights w) road false)) road
                   = Some false)
        by (unfold light; simpl; apply get_set_same).
      split; [exact Hc|]. split; [|split; [|split; [|split]]].
      * intros r Hr. unfold light. simpl. apply get_set_other. congruence.
      * simpl. apply keys_set_present. eapply get_In_keys; exact E.
      * unfold same_records. simpl. auto 10.
      * reflexivity.
      * now rewrite lock_traffic_eq, Hc.
    + exists w. split; [reflexivity|]. split; [exact E|].
      split; [reflexivity|]. split; [reflexivity|].
      split; [apply same_records_refl|]. split; [reflexivity|].
      now rewrite lock_traffic_eq, E.
Qed.

Lemma lock_traffic_behaviour_witness :
  exists w', lock_traffic "Road1" ambulance_served = (Val tt, w') /\
             light w' "Road1" = Some false /\
             light w' "Road2" = light ambulance_served "Road2".
Proof.
  destruct (proj2 (lock_traffic_behaviour "Road1" ambulance_served))
    as (w' & H & Hc & Ho & _); [discriminate|].
  exists w'. split; [exact H|]. split; [exact Hc|].
  apply Ho. discriminate.
Defined.

(** X2. [unlock_traffic] raises [KeyError] exactly on a road that is not a
    key of [traffic_lights], and then changes nothing.  On a known road it
    returns with that road open and nothing else changed (it closes no
    other road and writes no record), and a second call changes nothing
    more. *)
Theorem unlock_traffic_behaviour road w :
  (light w road = None -> unlock_traffic road w = (Exc KeyError, w)) /\
  (light w road <> None ->
   exists w',
     unlock_traffic road w = (Val tt, w') /\
     light w' road = Some true /\
     (forall r, r <> road -> light w' r = light w r) /\
     keys (traffic_lights w') = keys (traffic_lights w) /\
     same_records w w' /\ reads w' = reads w /\
     unlock_traffic road w' = (Val tt, w')).
Proof.
  split.
  - intros E. now rewrite unlock_traffic_eq, E.
  - intros Hk. rewrite unlock_traffic_eq.
    destruct (light w road) as [[]|] eqn:E; [| |contradiction].
    + exists w. split; [reflexivity|]. split; [exact E|].
      split; [reflexivity|]. split; [reflexivity|].
      split; [apply same_records_refl|]. split; [reflexivity|].
      now rewrite unlock_traffic_eq, E.
    + eexists. split; [reflexivity|].
      assert (Hc : light (with_traffic_lights w
                            (set (traffic_lights w) road true)) road
                   = Some true)
        by (unfold light; simpl; apply get_set_same).
      split; [exact Hc|]. split; [|split; [|split; [|split]]].
      * intros r Hr. unfold light. simpl. apply get_set_other. congruence.
      * simpl. apply keys_set_present. eapply get_In_keys; exact E.
      * unfold same_records. simpl. auto 10.
      * reflexivity.
      * now rewrite unlock_traffic_eq, Hc.
Qed.

Lemma unlock_traffic_behaviour_witness :
  exists w', unlock_traffic "Road2" ambulance_served = (Val tt, w') /\
             light w' "Road2" = Some true /\
             light w' "Road1" = light ambulance_served "Road1".
Proof.
  destruct (proj2 (unlock_traffic_behaviour "Road2" ambulance_served))
    as (w' & H & Hc & Ho & _); [discriminate|].
  exists w'. split; [exact H|]. split; [exact Hc|].
  apply Ho. discriminate.
Defined.

(** X3. Unlocking a closed road and locking it again gives back the state
    one started from, and so does locking an open road and unlocking it
    again. *)
Theorem lock_unlock_round_trip road w :
  (light w road = Some false ->
   (unlock_traffic road ;; lock_traffic road) w = (Val tt, w)) /\
  (light w road = Some true ->
   (lock_traffic road ;; unlock_traffic road) w = (Val tt, w)).
Proof.
  split; intros E; unfold bind.
  - rewrite unlock_traffic_eq, E, lock_traffic_eq. unfold light. simpl.
    rewrite get_set_same. simpl. rewrite set_set.
    rewrite (set_same_value _ _ _ E). now destruct w.
  - rewrite lock_traffic_eq, E, unlock_traffic_eq. unfold light. simpl.
    rewrite get_set_same. simpl. rewrite set_set.
    rewrite (set_same_value _ _ _ E). now destruct w.
Qed.

Lemma lock_unlock_round_trip_witness :
  (lock_traffic "Road1" ;; unlock_traffic "Road1") ambulance_served
  = (Val tt, ambulance_served).
Proof.
  apply (proj2 (lock_unlock_round_trip "Road1" ambulance_served)).
  reflexivity.
Defined.

(** ** What a call of [update_traffic_with_lock] can and cannot do *)

Lemma outcome_records road w w' :
  outcome road w w' ->
  forall r, In r (keys (last_open_data w)) -> In r (keys (last_open_data w')).
Proof.
  intros [L|w1 t m L Hm E|w1 t em m L Hm Hin Hc E] r Hr.
  - destruct L as ((_ & _ & -> & _) & _). exact Hr.
  - destruct L as ((_ & _ & Ed & _) & _). subst w'. simpl.
    apply keys_set_In. right. now rewrite Ed.
  - destruct L as ((_ & _ & Ed & _) & _). subst w'.
    destruct (switched_fields w1 road t em m) as (_ & _ & _ & -> & _).
    apply keys_set_In. right. now rewrite Ed.
Qed.

Lemma outcome_opens road w w' :
  outcome road w w' ->
  forall r, r <> road -> light w' r = Some true -> light w r = Some true.
Proof.
  intros [L|w1 t m L Hm E|w1 t em m L Hm Hin Hc E] r Hne Ho.
  - eapply only_locks_open; eauto.
  - subst w'. eapply only_locks_open; eauto.
  - subst w'. unfold light in Ho.
    destruct (switched_fields w1 road t em m) as (_ & _ & El & _).
    rewrite El, get_set_other in Ho by congruence.
    eapply only_locks_open; eauto.
Qed.

Lemma after_locking_reads clock road em extra w :
  (reads (snd (after_locking clock road em extra w))
   <= extra + S (reads w))%nat.
Proof.
  unfold after_locking. pose proof (lock_others_reads road w) as Hr.
  destruct (lock_others road w) as [[[]|e] w1]; simpl in *.
  - destruct (switched_fields w1 road (clock (reads w1)) (em w1)
                (extra + S (reads w1))) as (_ & _ & _ & _ & _ & _ & ->).
    lia.
  - lia.
Qed.

Lemma uwl_reads clock road h w :
  (reads (snd (update_traffic_with_lock clock road h w)) <= reads w + 3)%nat.
Proof.
  destruct (light w road) as [[]|] eqn:El.
  - rewrite uwl_open by assumption. simpl. lia.
  - destruct h.
    + rewrite uwl_emergency_closed by assumption.
      pose proof (after_locking_reads clock road
                    (fun w1 => clock (S (reads w1))) 1 w). lia.
    + rewrite uwl_density_closed by assumption.
      destruct (_ >=? 10); [|simpl; lia].
      destruct (_ >=? 10); [|simpl; lia].
      pose proof (after_locking_reads clock road (fun _ => 0) 0
                    (with_reads w (S (S (reads w))))) as H.
      simpl in H. lia.
  - destruct h.
    + rewrite uwl_emergency_unknown by assumption. simpl. lia.
    + rewrite uwl_density_unknown by assumption. simpl. lia.
Qed.

(** X4. [update_traffic_with_lock] returns normally in every state and for
    every road, known or not: the [KeyError] its body can raise is caught.
    It does not touch [road_data] or the GUI handle, adds and removes no key
    of [traffic_lights], removes no record, opens no road other than the one
    it is called for, and reads the clock at most three times. *)
Theorem update_traffic_with_lock_safe clock road h w :
  exists w',
    update_traffic_with_lock clock road h w = (Val tt, w') /\
    feed w' = feed w /\ road_data_bound w' = road_data_bound w /\
    gui w' = gui w /\
    keys (traffic_lights w') = keys (traffic_lights w) /\
    (forall r, In r (keys (last_open_data w)) ->
               In r (keys (last_open_data w'))) /\
    (forall r, r <> road -> light w' r = Some true ->
               light w r = Some true) /\
    (reads w <= reads w' <= reads w + 3)%nat.
Proof.
  pose proof (uwl_returns clock road h w) as Hv.
  pose proof (uwl_outcome clock road h w) as O.
  pose proof (uwl_reads clock road h w) as Hr.
  destruct (update_traffic_with_lock clock road h w) as [res w'].
  simpl in *. subst res. exists w'. split; [reflexivity|].
  destruct (outcome_extends _ _ _ O) as (Ef & Eb & Eg & Hle).
  repeat (split; [assumption|]).
  split; [eapply outcome_keys; eauto|].
  split; [eapply outcome_records; eauto|].
  split; [eapply outcome_opens; eauto|]. lia.
Qed.

(** ** The tick: preemption, switch and hold *)

Lemma reachable_light clock caps w r :
  reachable clock caps w -> In r (keys (feed w)) -> light w r <> None.
Proof.
  intros R Hin E. pose proof (reachable_known _ _ _ R) as K.
  apply (feed_configured _ K) in Hin. apply In_keys_get in Hin as [b Hb].
  unfold light in E. congruence.
Qed.

Lemma tick_preempts clock video_caps w road :
  reachable clock video_caps w ->
  emergency_road (road_counts_of (feed w)) = Some road ->
  light w road = Some false ->
  exists w',
    process_and_update_traffic clock w = (Val tt, w') /\
    light w' road = Some true /\
    (forall r, r <> road -> light w' r <> Some true) /\
    entry w' road = Some (mkEntry (clock (reads w)) road) /\
    last_open_time_em w' = clock (S (reads w)) /\
    reads w' = S (S (reads w)).
Proof.
  intros R Er Hl.
  pose proof (reachable_known _ _ _ R) as K.
  pose proof (reachable_consistent _ _ _ R) as C.
  rewrite (emergency_tick_eq _ _ _ Er).
  set (w0 := with_road_data_bound w true).
  rewrite uwl_emergency_closed by exact Hl.
  destruct (after_locking_switches clock road
              (fun w1 => clock (S (reads w1))) 1%nat w0)
    as (w1 & Hlock & -> & Ho & Hothers).
  - now apply known_bound.
  - eapply consistent_ext; [| |exact C]; reflexivity.
  - eapply get_In_keys. exact Hl.
  - pose proof (lock_others_reads road w0) as Hr. rewrite Hlock in Hr.
    simpl in Hr.
    eexists. split; [reflexivity|]. split; [exact Ho|].
    split; [exact Hothers|].
    destruct (switched_fields w1 road (clock (reads w0))
                (clock (S (reads w1))) (1 + S (reads w0)))
      as (_ & _ & _ & Ed & _ & Eem & Ern).
    unfold entry. rewrite Ed, Eem, Ern, Hr, get_set_same.
    repeat split.
Qed.

(** X5. In a reachable state, when the emergency scan stops at a road that
    is closed, the tick opens it at once, whatever the records and
    [last_open_time_em] say: it returns with that road as the only open
    one, its record carrying the first clock reading and
    [last_open_time_em] the second. *)
Theorem emergency_preemption clock video_caps w road :
  reachable clock video_caps w ->
  emergency_road (road_counts_of (feed w)) = Some road ->
  light w road = Some false ->
  exists w',
    process_and_update_traffic clock w = (Val tt, w') /\
    light w' road = Some true /\
    (forall r, r <> road -> light w' r <> Some true) /\
    entry w' road = Some (mkEntry (clock (reads w)) road) /\
    last_open_time_em w' = clock (S (reads w)) /\
    reads w' = S (S (reads w)).
Proof.
  intros R Er Hl. exact (tick_preempts clock video_caps w road R Er Hl).
Qed.

Lemma emergency_preemption_witness :
  exists w',
    process_and_update_traffic (ticking 1) three_emergencies = (Val tt, w') /\
    light w' "Road1" = Some true /\
    last_open_time_em w' = ticking 1 1.
Proof.
  destruct (emergency_preemption (ticking 1) three_roads three_emergencies
              "Road1") as (w' & H & Ho & _ & _ & Hem & _).
  - apply reachable_ops; [apply reach_initial|reflexivity].
  - reflexivity.
  - reflexivity.
  - exists w'. repeat split; assumption.
Defined.

(** X6. The loop of the emergency branch calls [update_traffic_with_lock]
    once, for the first road in the order of the dictionary that has an
    ambulance, a firefighter or a police count above zero, whatever the
    roads after it carry; when no road has one it makes no call. *)
Theorem emergency_scan_first clock h pre road c post :
  (forall x, In x pre -> has_emergency (snd x) = false) ->
  (has_emergency c = true ->
   emergency_scan clock h (pre ++ (road, c) :: post)
   = update_traffic_with_lock clock road h) /\
  (has_emergency c = false ->
   (forall x, In x post -> has_emergency (snd x) = false) ->
   emergency_scan clock h (pre ++ (road, c) :: post) = ret tt).
Proof.
  intros Hpre.
  assert (Hskip : forall items,
            emergency_road (pre ++ items) = emergency_road items).
  { intros items. induction pre as [|[k x] pre IH]; simpl; [reflexivity|].
    pose proof (Hpre (k, x) (or_introl eq_refl)) as Hx. simpl in Hx.
    rewrite Hx. apply IH. intros y Hy. apply Hpre. now right. }
  split.
  - intros Hc. rewrite emergency_scan_eq, Hskip. simpl. now rewrite Hc.
  - intros Hc Hpost. rewrite emergency_scan_eq, Hskip. simpl. rewrite Hc.
    assert (Hnone : emergency_road post = None).
    { induction post as [|[k x] post IH]; simpl; [reflexivity|].
      pose proof (Hpost (k, x) (or_introl eq_refl)) as Hx. simpl in Hx.
      rewrite Hx. apply IH. intros y Hy. apply Hpost. now right. }
    now rewrite Hnone.
Qed.

Lemma emergency_scan_first_witness :
  emergency_scan (ticking 1) true
    ([("Road1", just_cars 4)] ++ ("Road2", one_police) ::
     [("Road3", one_ambulance)])
  = update_traffic_with_lock (ticking 1) "Road2" true.
Proof.
  apply (emergency_scan_first (ticking 1) true [("Road1", just_cars 4)]
           "Road2" one_police [("Road3", one_ambulance)]).
  - intros x [<-|[]]. reflexivity.
  - reflexivity.
Defined.

(** X7. In a reachable state without any emergency count, when the road
    with the greatest sum of counts is closed, the first clock reading is at
    least 10 after the time of its record (0 without a record) and the
    second at least 10 after [last_open_time_em], the tick switches: it
    returns with that road as the only open one, its record carrying the
    third reading and [last_open_time_em] reset to 0. *)
Theorem density_switch clock video_caps w m :
  reachable clock video_caps w ->
  emergency_road (road_counts_of (feed w)) = None ->
  max_count_road (feed w) = Some m ->
  light w m = Some false ->
  clock (reads w) - last_time_or_0 w m >= 10 ->
  clock (S (reads w)) - last_open_time_em w >= 10 ->
  exists w',
    process_and_update_traffic clock w = (Val tt, w') /\
    light w' m = Some true /\
    (forall r, r <> m -> light w' r <> Some true) /\
    entry w' m = Some (mkEntry (clock (S (S (reads w)))) m) /\
    last_open_time_em w' = 0.
Proof.
  intros R Er Em Hl H1 H2.
  pose proof (reachable_known _ _ _ R) as K.
  pose proof (reachable_consistent _ _ _ R) as C.
  rewrite tick_eq by apply (feed_nodup _ K). cbv zeta. rewrite Er, Em.
  set (w0 := with_road_data_bound w true).
  rewrite uwl_density_closed by exact Hl.
  change (last_time_or_0 w0 m) with (last_time_or_0 w m).
  change (reads w0) with (reads w).
  change (last_open_time_em w0) with (last_open_time_em w).
  assert (E1 : (clock (reads w) - last_time_or_0 w m >=? 10) = true)
    by (apply Z.geb_le; lia).
  assert (E2 : (clock (S (reads w)) - last_open_time_em w >=? 10) = true)
    by (apply Z.geb_le; lia).
  rewrite E1, E2.
  set (wg := with_reads w0 (S (S (reads w)))).
  destruct (after_locking_switches clock m (fun _ => 0) 0%nat wg)
    as (w1 & Hlock & -> & Ho & Hothers).
  - apply known_only_locks with (w := w0);
      [now apply known_bound|apply only_locks_with_reads; simpl; lia].
  - eapply consistent_ext; [| |exact C]; reflexivity.
  - eapply get_In_keys. exact Hl.
  - eexists. split; [reflexivity|]. split; [exact Ho|].
    split; [exact Hothers|].
    destruct (switched_fields w1 m (clock (reads wg)) 0 (0 + S (reads wg)))
      as (_ & _ & _ & Ed & _ & Eem & _).
    unfold entry. rewrite Ed, Eem, get_set_same. split; reflexivity.
Qed.

Lemma density_switch_witness :
  exists w',
    process_and_update_traffic (ticking 1) busier_neighbour = (Val tt, w') /\
    light w' "Road2" = Some true /\ last_open_time_em w' = 0.
Proof.
  destruct (density_switch (ticking 1) two_roads busier_neighbour "Road2")
    as (w' & H & Ho & _ & _ & Hem).
  - apply reachable_ops; [apply reach_initial|reflexivity].
  - reflexivity.
  - reflexivity.
  - reflexivity.
  - vm_compute. discriminate.
  - vm_compute. discriminate.
  - exists w'. repeat split; assumption.
Defined.

(** X8. In a reachable state without any emergency count, the tick holds,
    that is, returns without changing a light, a record,
    [last_open_time_em] or the display, whenever the road with the greatest
    sum of counts is already open, or its record is less than 10 old at the
    first clock reading, or [last_open_time_em] is less than 10 before the
    second. *)
Theorem density_hold clock video_caps w m :
  reachable clock video_caps w ->
  emergency_road (road_counts_of (feed w)) = None ->
  max_count_road (feed w) = Some m ->
  light w m = Some true \/
  clock (reads w) - last_time_or_0 w m < 10 \/
  clock (S (reads w)) - last_open_time_em w < 10 ->
  exists n,
    process_and_update_traffic clock w
    = (Val tt, with_reads (with_road_data_bound w true) n).
Proof.
  intros R Er Em Hhold.
  pose proof (reachable_known _ _ _ R) as K.
  rewrite tick_eq by apply (feed_nodup _ K). cbv zeta. rewrite Er, Em.
  set (w0 := with_road_data_bound w true).
  destruct (light w m) as [[]|] eqn:El.
  - exists (reads w). rewrite uwl_open by exact El. now destruct w.
  - rewrite uwl_density_closed by exact El.
    change (last_time_or_0 w0 m) with (last_time_or_0 w m).
    change (reads w0) with (reads w).
    change (last_open_time_em w0) with (last_open_time_em w).
    destruct (clock (reads w) - last_time_or_0 w m >=? 10) eqn:E1; [|eauto].
    destruct (clock (S (reads w)) - last_open_time_em w >=? 10) eqn:E2;
      [|eauto].
    apply Z.geb_le in E1, E2. destruct Hhold as [H|[H|H]];
      [discriminate|lia|lia].
  - exists (reads w). rewrite uwl_density_unknown by exact El.
    now destruct w.
Qed.

Lemma density_hold_witness :
  exists n,
    process_and_update_traffic (ticking 200) jam_without_cars
    = (Val tt, with_reads (with_road_data_bound jam_without_cars true) n).
Proof.
  apply (density_hold (ticking 200) two_roads jam_without_cars "Road1").
  - apply reachable_ops; [apply reach_initial|reflexivity].
  - reflexivity.
  - reflexivity.
  - left. reflexivity.
Defined.

(** ** The road picked by the density branch *)

Lemma max_from_first {A} (xs : list (A * Z)) best :
  exists pre y post,
    best :: xs = pre ++ y :: post /\
    max_from best xs = fst y /\
    (forall z, In z pre -> snd z < snd y) /\
    (forall z, In z post -> snd z <= snd y) /\
    snd best <= snd y.
Proof.
  revert best. induction xs as [|x xs IH]; intros best; simpl.
  - exists [], best, []. split; [reflexivity|]. split; [reflexivity|].
    split; [intros ? []|]. split; [intros ? []|]. lia.
  - destruct (snd x >? snd best) eqn:E.
    + apply Z.gtb_lt in E.
      destruct (IH x) as (pre & y & post & Hl & Hm & Hpre & Hpost & Hb).
      exists (best :: pre), y, post. simpl. rewrite Hl.
      split; [reflexivity|]. split; [exact Hm|]. split; [|split].
      * intros u [<-|Hu]; [lia|auto].
      * exact Hpost.
      * lia.
    + rewrite Z.gtb_ltb, Z.ltb_ge in E.
      destruct (IH best) as (pre & y & post & Hl & Hm & Hpre & Hpost & Hb).
      destruct pre as [|b pre]; simpl in Hl.
      * injection Hl as <- <-. exists [], best, (x :: xs).
        split; [reflexivity|]. split; [exact Hm|]. split; [|split].
        -- intros ? [].
        -- intros u [<-|Hu]; [lia|auto].
        -- lia.
      * injection Hl as <- ->. exists (best :: x :: pre), y, post.
        split; [reflexivity|]. split; [exact Hm|]. split; [|split].
        -- intros u [<-|[<-|Hu]].
           ++ apply Hpre. now left.
           ++ pose proof (Hpre best (or_introl eq_refl)). lia.
           ++ apply Hpre. now right.
        -- exact Hpost.
        -- exact Hb.
Qed.

(** X9. The road the density branch selects is the first one with the
    greatest sum of counts: every road before it in [road_data] has a
    strictly smaller sum, every road after it a sum that is no greater.
    With equal sums the road inserted first wins. *)
Theorem max_count_road_first rd m :
  NoDup (keys rd) ->
  max_count_road rd = Some m ->
  exists pre x post,
    rd = pre ++ (m, x) :: post /\
    (forall kv, In kv pre -> total_of kv < total_of (m, x)) /\
    (forall kv, In kv post -> total_of kv <= total_of (m, x)).
Proof.
  intros N Hm. unfold max_count_road in Hm.
  rewrite keyed_totals_map in Hm by assumption.
  destruct rd as [|kv0 rd]; simpl in Hm; [discriminate|].
  injection Hm as Hm.
  destruct (max_from_first
              (map (fun kv => (fst kv, sum_values (counts (snd kv)))) rd)
              (fst kv0, sum_values (counts (snd kv0))))
    as (pre & y & post & Hl & Hy & Hpre & Hpost & _).
  change ((fst kv0, sum_values (counts (snd kv0)))
          :: map (fun kv => (fst kv, sum_values (counts (snd kv)))) rd)
    with (map (fun kv => (fst kv, sum_values (counts (snd kv))))
              (kv0 :: rd)) in Hl.
  apply map_eq_app in Hl as (pre0 & rest & Hrd & Hp & Hr).
  apply map_eq_cons in Hr as ([k x] & post0 & -> & Hyx & Hpo).
  subst y pre post. simpl in Hy. rewrite Hy in Hm. subst k.
  exists pre0, x, post0. split; [exact Hrd|]. split.
  - intros kv Hin. unfold total_of. simpl.
    apply (Hpre (fst kv, sum_values (counts (snd kv)))).
    apply in_map_iff. eauto.
  - intros kv Hin. unfold total_of. simpl.
    apply (Hpost (fst kv, sum_values (counts (snd kv)))).
    apply in_map_iff. eauto.
Qed.

Lemma max_count_road_first_witness :
  exists pre x post,
    feed starved_road = pre ++ ("Road2", x) :: post /\
    (forall kv, In kv pre -> total_of kv < total_of ("Road2", x)) /\
    (forall kv, In kv post -> total_of kv <= total_of ("Road2", x)).
Proof.
  apply (max_count_road_first (feed starved_road) "Road2").
  - vm_compute. repeat constructor; simpl; intuition discriminate.
  - reflexivity.
Defined.

(** ** The sweep: errors, quiet runs and what it opens *)

Lemma overdue_none clock w :
  (forall r e, entry w r = Some e -> clock (reads w) - time e < 120) ->
  existsb (overdue (last_open_data w) (clock (reads w)))
          (keys (last_open_data w)) = false.
Proof.
  intros Hy. destruct (existsb _ _) eqn:E; [|reflexivity].
  apply existsb_exists in E as (r & _ & Ho). unfold overdue in Ho.
  destruct (get (last_open_data w) r) as [e|] eqn:He; [|discriminate].
  apply Z.geb_le in Ho. specialize (Hy r e He). lia.
Qed.

Lemma sweep_never_raises clock video_caps w :
  reachable clock video_caps w ->
  exists w', check_and_open_overdue_road clock w = (Val tt, w').
Proof.
  intros R. pose proof (reachable_known _ _ _ R) as K.
  pose proof (reachable_consistent _ _ _ R) as C.
  rewrite check_and_open_overdue_road_eq.
  destruct (existsb _ _) eqn:Ex; [|eauto].
  apply existsb_exists in Ex as (r0 & Hr0 & _).
  assert (Hb : road_data w = Some (feed w)).
  { unfold road_data. rewrite (recorded_bound _ K); [reflexivity|].
    intros E. rewrite E in Hr0. destruct Hr0. }
  rewrite open_most_cars_eq. simpl.
  change (road_data (with_reads w (S (reads w)))) with (road_data w).
  rewrite Hb.
  destruct (eligible_roads_from_known clock (last_open_data w) (feed w)
              (S (reads w)) (keys (last_open_data w)))
    as (el & m & Hel & _); [auto|apply (recorded_fed _ K)|].
  rewrite Hel.
  destruct (most_cars _ el) as [new|] eqn:Em; [|eauto].
  pose proof (eligible_roads_from_reads clock (last_open_data w)
                (Some (feed w)) (S (reads w)) (keys (last_open_data w)))
    as Hm. rewrite Hel in Hm. simpl in Hm.
  destruct (open_road_now_switches (clock (reads w)) new
              (with_reads (with_reads w (S (reads w))) m))
    as (w1 & -> & _).
  - apply known_only_locks with (w := w); [exact K|].
    apply (only_locks_with_reads w m). lia.
  - eapply consistent_ext; [| |exact C]; reflexivity.
  - apply most_cars_In in Em.
    destruct (eligible_roads_from_In _ _ _ _ _ _ _ Hel new Em) as [Hin _].
    apply (feed_configured _ K), (recorded_fed _ K), Hin.
  - eauto.
Qed.

(** X10. From a reachable state the sweep never raises: every road it looks
    up is recorded, configured and has a snapshot.  In particular it is
    harmless before the first tick, when [road_data] is still [None]. *)
Theorem sweep_returns clock video_caps w :
  reachable clock video_caps w ->
  exists w', check_and_open_overdue_road clock w = (Val tt, w').
Proof. apply sweep_never_raises. Qed.

Lemma sweep_returns_witness :
  exists w', check_and_open_overdue_road (ticking 200) starved_road
             = (Val tt, w').
Proof.
  apply (sweep_returns (ticking 200) two_roads starved_road).
  apply reachable_ops; [apply reach_initial|reflexivity].
Defined.

(** X11. A sweep in which the time read first is less than 120 after the
    time of every record does nothing but read the clock once, however many
    cars wait. *)
Theorem sweep_quiet clock w :
  (forall r e, entry w r = Some e -> clock (reads w) - time e < 120) ->
  check_and_open_overdue_road clock w = (Val tt, with_reads w (S (reads w))).
Proof.
  intros Hy. rewrite check_and_open_overdue_road_eq.
  now rewrite overdue_none.
Qed.

Lemma sweep_quiet_witness :
  check_and_open_overdue_road (ticking 1) busier_neighbour
  = (Val tt, with_reads busier_neighbour (S (reads busier_neighbour))).
Proof.
  apply (sweep_quiet (ticking 1) busier_neighbour).
  intros r e He. unfold entry in He.
  change (last_open_data busier_neighbour)
    with [("Road1", mkEntry 1700000002 "Road1")] in He.
  cbn [get] in He. destruct (String.eqb "Road1" r); [|discriminate].
  injection He as <-. vm_compute. reflexivity.
Defined.

(** X12. Whenever a sweep from a reachable state changes a light, the road
    it leaves open is a recorded road with at least one car in its latest
    counts, and some record was at least 120 old: the sweep never opens a
    road on which no car was counted. *)
Theorem sweep_opens_road_with_cars clock video_caps w :
  reachable clock video_caps w ->
  traffic_lights (snd (check_and_open_overdue_road clock w))
    <> traffic_lights w ->
  exists r e,
    light (snd (check_and_open_overdue_road clock w)) r = Some true /\
    cars w r > 0 /\
    entry w r = Some e /\
    existsb (overdue (last_open_data w) (clock (reads w)))
            (keys (last_open_data w)) = true.
Proof.
  intros R Hch. pose proof (reachable_known _ _ _ R) as K.
  pose proof (reachable_consistent _ _ _ R) as C.
  rewrite check_and_open_overdue_road_eq in *.
  destruct (existsb _ _) eqn:Ex; [|now contradiction Hch].
  pose proof Ex as Ex'. apply existsb_exists in Ex' as (r0 & Hr0 & _).
  assert (Hb : road_data w = Some (feed w)).
  { unfold road_data. rewrite (recorded_bound _ K); [reflexivity|].
    intros E. rewrite E in Hr0. destruct Hr0. }
  rewrite open_most_cars_eq in *. simpl in *.
  change (road_data (with_reads w (S (reads w)))) with (road_data w) in *.
  rewrite Hb in *.
  destruct (eligible_roads_from clock (last_open_data w) (Some (feed w))
              (S (reads w)) (keys (last_open_data w)))
    as [[el|x] m] eqn:Hel; [|now contradiction Hch].
  destruct (most_cars _ el) as [new|] eqn:Em; [|now contradiction Hch].
  apply most_cars_In in Em.
  destruct (eligible_roads_from_In _ _ _ _ _ _ _ Hel new Em)
    as (Hin & f & x & Hf & Hx & Hcar).
  injection Hf as <-.
  pose proof (eligible_roads_from_reads clock (last_open_data w)
                (Some (feed w)) (S (reads w)) (keys (last_open_data w)))
    as Hm. rewrite Hel in Hm. simpl in Hm.
  destruct (open_road_now_switches (clock (reads w)) new
              (with_reads (with_reads w (S (reads w))) m))
    as (w1 & Hnow & Ho & _).
  - apply known_only_locks with (w := w); [exact K|].
    apply (only_locks_with_reads w m). lia.
  - eapply consistent_ext; [| |exact C]; reflexivity.
  - apply (feed_configured _ K), (recorded_fed _ K), Hin.
  - rewrite Hnow in *. simpl in *.
    destruct (In_keys_get _ _ Hin) as [e He].
    exists new, e. split; [exact Ho|]. split.
    + unfold cars. now rewrite Hx.
    + split; [exact He|reflexivity].
Qed.

Lemma sweep_opens_road_with_cars_witness :
  exists r e,
    light (snd (check_and_open_overdue_road (ticking 200) starved_busy_road))
          r = Some true /\
    cars starved_busy_road r > 0 /\
    entry starved_busy_road r = Some e /\
    existsb (overdue (last_open_data starved_busy_road)
                     (ticking 200 (reads starved_busy_road)))
            (keys (last_open_data starved_busy_road)) = true.
Proof.
  apply (sweep_opens_road_with_cars (ticking 200) two_roads
           starved_busy_road).
  - apply reachable_ops; [apply reach_initial|reflexivity].
  - vm_compute. discriminate.
Defined.

Lemma eligible_roads_from_waited clock d rd n ks el m :
  eligible_roads_from clock d rd n ks = (Val el, m) ->
  forall r, In r el ->
    exists i e, (n <= i < n + List.length ks)%nat /\
                get d r = Some e /\ clock i - time e >= 10.
Proof.
  revert n el m. induction ks as [|k ks IH]; intros n el m H r Hin;
    simpl in H.
  - injection H as <- <-. destruct Hin.
  - destruct (eligible_at d rd (clock n) k) as [b|x] eqn:Ek; [|discriminate].
    destruct (eligible_roads_from clock d rd (S n) ks) as [[rest|x] m']
      eqn:Er; [|discriminate].
    injection H as <- <-.
    assert (Hrest : In r rest ->
              exists i e, (n <= i < n + List.length (k :: ks))%nat /\
                          get d r = Some e /\ clock i - time e >= 10).
    { intros Hr. destruct (IH _ _ _ Er r Hr) as (i & e & Hi & He & Ht).
      exists i, e. simpl. repeat split; auto; lia. }
    destruct b; [|auto]. destruct Hin as [<-|Hr]; [|auto].
    unfold eligible_at in Ek. destruct (get d k) as [e|]; [|discriminate].
    destruct (clock n - time e >=? 10) eqn:Et; [|discriminate].
    exists n, e. simpl. apply Z.geb_le in Et. repeat split; auto; lia.
Qed.

(** X13. A road that is not open and whose record is less than 10 old at
    every clock reading the list comprehension takes is not open after the
    sweep either: a road the tick has just closed, or whose record was just
    written, cannot be the one the sweep opens. *)
Theorem sweep_skips_young_record clock w r e :
  entry w r = Some e ->
  (forall i, (reads w < i <= reads w + List.length (last_open_data w))%nat ->
             clock i - time e < 10) ->
  light w r <> Some true ->
  light (snd (check_and_open_overdue_road clock w)) r <> Some true.
Proof.
  intros He Hyoung Hl. rewrite check_and_open_overdue_road_eq.
  destruct (existsb _ _); [|exact Hl].
  rewrite open_most_cars_eq. simpl.
  destruct (eligible_roads_from clock (last_open_data w) _ (S (reads w))
              (keys (last_open_data w))) as [[el|x] m] eqn:Hel;
    [|exact Hl].
  destruct (most_cars _ el) as [new|] eqn:Em; [|exact Hl].
  apply most_cars_In in Em.
  destruct (eligible_roads_from_waited _ _ _ _ _ _ _ Hel new Em)
    as (i & e' & Hi & He' & Ht).
  unfold keys in Hi. rewrite length_map in Hi.
  assert (Hne : r <> new).
  { intros ->. unfold entry in He. rewrite He in He'. injection He' as <-.
    specialize (Hyoung i). lia. }
  intros Ho.
  apply (outcome_opens _ _ _ (open_road_now_outcome (clock (reads w)) new _))
    in Ho; [|exact Hne].
  exact (Hl Ho).
Qed.

Lemma sweep_skips_young_record_witness :
  existsb (overdue (last_open_data three_switches)
                   (jumping (reads three_switches)))
          (keys (last_open_data three_switches)) = true /\
  light (snd (check_and_open_overdue_road jumping three_switches)) "Road1"
    = Some true /\
  light (snd (check_and_open_overdue_road jumping three_switches)) "Road3"
    <> Some true.
Proof.
  split; [reflexivity|]. split; [reflexivity|].
  apply (sweep_skips_young_record jumping three_switches "Road3"
           (mkEntry 1700000205 "Road3")).
  - reflexivity.
  - intros i Hi. change (9 < i <= 9 + 3)%nat in Hi.
    assert (Hc : i = 10%nat \/ i = 11%nat \/ i = 12%nat) by lia.
    destruct Hc as [-> | [-> | ->]]; vm_compute; reflexivity.
  - vm_compute. discriminate.
Defined.

(** ** What the display is shown *)

Lemma consistent_mapping_exclusive w :
  consistent w -> mapping_exclusive (traffic_lights w).
Proof.
  intros C. apply consistent_at_most_one_open in C.
  unfold at_most_one_open, open_roads in C. now rewrite length_map in C.
Qed.

Lemma outcome_display_shown road w w' :
  outcome road w w' ->
  display w' = display w \/ display w' = traffic_lights w' :: display w.
Proof.
  intros [L|w1 t m L Hm E|w1 t em m L Hm Hin Hc E].
  - left. now destruct L as ((_ & _ & _ & _ & _ & -> & _) & _).
  - left. destruct L as ((_ & _ & _ & _ & _ & <- & _) & _). now subst w'.
  - destruct L as ((_ & _ & _ & _ & _ & <- & _) & _). subst w'.
    unfold switched, notified. simpl. destruct (gui w1); simpl; auto.
Qed.

Lemma shown_step road w w' :
  consistent w' -> outcome road w w' ->
  Forall mapping_exclusive (display w) ->
  Forall mapping_exclusive (display w').
Proof.
  intros C' O F. destruct (outcome_display_shown _ _ _ O) as [-> | ->];
    [exact F|].
  constructor; [now apply consistent_mapping_exclusive|exact F].
Qed.

Lemma run_op_shown clock o w :
  consistent w -> Forall mapping_exclusive (display w) ->
  Forall mapping_exclusive (display (snd (run_op clock o w))).
Proof.
  intros C F. destruct o; simpl; try exact F.
  - unfold process_and_update_traffic, bind, modify.
    rewrite update_traffic_light_eq.
    assert (C0 : consistent (with_road_data_bound w true))
      by (eapply consistent_ext; [| |exact C]; reflexivity).
    assert (F0 : Forall mapping_exclusive
                        (display (with_road_data_bound w true))) by exact F.
    revert C0 F0. generalize (with_road_data_bound w true). intros w0 C0 F0.
    destruct (road_data w0) as [rd|]; [|exact F0].
    destruct (any_emergency (road_counts_of rd)).
    + rewrite emergency_scan_eq.
      destruct (emergency_road (road_counts_of rd)) as [r|]; [|exact F0].
      eapply shown_step; [now apply uwl_consistent|apply uwl_outcome|exact F0].
    + destruct (max_count_road rd) as [m|]; [|exact F0].
      apply (for_each_preserves
               (fun w1 => consistent w1 /\
                          Forall mapping_exclusive (display w1)));
        [|now split].
      intros road w1 [C1 F1]. destruct (String.eqb road m); [|now split].
      split; [now apply uwl_consistent|].
      eapply shown_step; [now apply uwl_consistent|apply uwl_outcome|exact F1].
  - destruct (sweep_outcome clock w) as [L|(new & _ & O)].
    + now destruct L as ((_ & _ & _ & _ & _ & -> & _) & _).
    + eapply shown_step; [now apply sweep_consistent|exact O|exact F].
Qed.

(** X14. Every light mapping handed to [update_traffic_display] in a run
    from the initial state has at most one road open: the GUI is never
    shown two green lights. *)
Theorem display_exclusive clock video_caps w :
  reachable clock video_caps w ->
  Forall mapping_exclusive (display w).
Proof.
  induction 1 as [|w o R IH _]; [constructor|].
  apply run_op_shown; [|exact IH]. eapply reachable_consistent; eauto.
Qed.

Lemma display_exclusive_witness :
  display (run (ticking 1)
             [SetGui; Ingest "Road1" (just_cars 5) 5; Tick;
              Ingest "Road2" (just_cars 9) 9; Tick]
             (initial two_roads))
  = [[("Road1", false); ("Road2", true)];
     [("Road1", true); ("Road2", false)]] /\
  Forall mapping_exclusive
    (display (run (ticking 1)
                [SetGui; Ingest "Road1" (just_cars 5) 5; Tick;
                 Ingest "Road2" (just_cars 9) 9; Tick]
                (initial two_roads))).
Proof.
  split; [reflexivity|].
  apply (display_exclusive (ticking 1) two_roads).
  apply reachable_ops; [apply reach_initial|reflexivity].
Defined.

Lemma synced_ext w w' :
  traffic_lights w' = traffic_lights w -> display w' = display w ->
  synced w -> synced w'.
Proof.
  intros El Ed. unfold synced, light. now rewrite El, Ed.
Qed.

Lemma switched_synced w1 road t em n :
  gui w1 = true -> synced (switched w1 road t em n).
Proof.
  intros G. right. unfold switched, notified. simpl. rewrite G. simpl.
  eauto.
Qed.

Lemma switched_gui w1 road t em n : gui (switched w1 road t em n) = gui w1.
Proof. now destruct (switched_fields w1 road t em n) as (_ & _ & _ & _ & -> & _). Qed.

Lemma uwl_synced clock road h w :
  known w -> consistent w -> gui w = true -> synced w ->
  In road (keys (traffic_lights w)) ->
  synced (snd (update_traffic_with_lock clock road h w)).
Proof.
  intros K C G S Hin.
  assert (Hswitch : forall em extra wg,
            traffic_lights wg = traffic_lights w ->
            last_open_data wg = last_open_data w ->
            feed wg = feed w -> road_data_bound wg = road_data_bound w ->
            gui wg = true ->
            synced (snd (after_locking clock road em extra wg))).
  { intros em extra wg El Ed Ef Eb Eg.
    destruct (after_locking_switches clock road em extra wg)
      as (w1 & Hlock & -> & _).
    - destruct K as [F R B N FN]. split; rewrite ?El, ?Ed, ?Ef, ?Eb; auto.
    - eapply consistent_ext; [| |exact C]; assumption.
    - now rewrite El.
    - simpl. apply switched_synced.
      pose proof (lock_others_only_locks road wg) as L. rewrite Hlock in L.
      simpl in L. destruct L as ((_ & _ & _ & Eg' & _) & _). congruence. }
  destruct (light w road) as [[]|] eqn:El.
  - now rewrite uwl_open.
  - destruct h.
    + rewrite uwl_emergency_closed by assumption. now apply Hswitch.
    + rewrite uwl_density_closed by assumption.
      destruct (_ >=? 10); [|exact S].
      destruct (_ >=? 10); [|exact S].
      now apply Hswitch.
  - exfalso. apply In_keys_get in Hin as [b Hb]. unfold light in El.
    congruence.
Qed.

Lemma run_op_synced clock caps o w :
  reachable clock caps w -> admissible w o ->
  gui w = true -> synced w ->
  gui (snd (run_op clock o w)) = true /\ synced (snd (run_op clock o w)).
Proof.
  intros R A G Sy. pose proof (reachable_known _ _ _ R) as K.
  pose proof (reachable_consistent _ _ _ R) as C.
  destruct o; simpl.
  - split; [reflexivity|exact Sy].
  - split; [exact G|exact Sy].
  - assert (K0 : known (with_road_data_bound w true)) by now apply known_bound.
    assert (C0 : consistent (with_road_data_bound w true))
      by (eapply consistent_ext; [| |exact C]; reflexivity).
    rewrite tick_eq by apply (feed_nodup _ K). cbv zeta.
    destruct (emergency_road (road_counts_of (feed w))) as [r|] eqn:Er.
    + split.
      * destruct (outcome_extends _ _ _
                    (uwl_outcome clock r true (with_road_data_bound w true)))
          as (_ & _ & -> & _). exact G.
      * apply uwl_synced; auto.
        apply (feed_configured _ K). apply emergency_road_In in Er.
        now rewrite keys_road_counts_of in Er by apply (feed_nodup _ K).
    + destruct (max_count_road (feed w)) as [m|] eqn:Em; [|now split].
      split.
      * destruct (outcome_extends _ _ _
                    (uwl_outcome clock m false (with_road_data_bound w true)))
          as (_ & _ & -> & _). exact G.
      * apply uwl_synced; auto.
        apply (feed_configured _ K).
        apply max_count_road_In; [apply (feed_nodup _ K)|exact Em].
  - split.
    + destruct (sweep_outcome clock w) as [L|(new & _ & O)].
      * destruct L as ((_ & _ & _ & -> & _) & _). exact G.
      * apply outcome_extends in O as (_ & _ & -> & _). exact G.
    + rewrite check_and_open_overdue_road_eq.
      destruct (existsb _ _) eqn:Ex; [|exact Sy].
      apply existsb_exists in Ex as (r0 & Hr0 & _).
      assert (Hb : road_data w = Some (feed w)).
      { unfold road_data. rewrite (recorded_bound _ K); [reflexivity|].
        intros E. rewrite E in Hr0. destruct Hr0. }
      rewrite open_most_cars_eq. simpl.
      change (road_data (with_reads w (S (reads w)))) with (road_data w).
      rewrite Hb.
      destruct (eligible_roads_from clock (last_open_data w) (Some (feed w))
                  (S (reads w)) (keys (last_open_data w)))
        as [[el|x] m] eqn:Hel; [|exact Sy].
      destruct (most_cars _ el) as [new|] eqn:Em; [|exact Sy].
      apply most_cars_In in Em.
      destruct (eligible_roads_from_In _ _ _ _ _ _ _ Hel new Em) as [Hin _].
      pose proof (eligible_roads_from_reads clock (last_open_data w)
                    (Some (feed w)) (S (reads w)) (keys (last_open_data w)))
        as Hm. rewrite Hel in Hm. simpl in Hm.
      destruct (open_road_now_switches (clock (reads w)) new
                  (with_reads (with_reads w (S (reads w))) m))
        as (w1 & Hnow & _).
      * apply known_only_locks with (w := w); [exact K|].
        apply (only_locks_with_reads w m). lia.
      * eapply consistent_ext; [| |exact C]; reflexivity.
      * apply (feed_configured _ K), (recorded_fed _ K), Hin.
      * rewrite Hnow. simpl. apply switched_synced.
        unfold open_road_now in Hnow.
        pose proof (lock_others_only_locks new
                      (with_reads (with_reads w (S (reads w))) m)) as L.
        destruct (lock_others new _) as [[[]|x] w2]; [|discriminate].
        destruct (light w2 new); [|discriminate].
        injection Hnow as Hnow.
        destruct L as ((_ & _ & _ & Eg & _) & _). simpl in Eg.
        assert (gui (switched w2 new (clock (reads w))
                       (last_open_time_em w2) (reads w2)) = gui w1)
          by (rewrite Hnow; apply switched_gui).
        rewrite switched_gui in H. congruence.
Qed.

(** X15. With the GUI attached before the first frame, the display is
    always up to date after a completed operation: either nothing was shown
    yet and every road is closed, or the mapping shown last is the current
    [traffic_lights]. *)
Theorem display_in_sync clock video_caps os :
  forallb (configured video_caps) os = true ->
  synced (run clock os (attached video_caps)).
Proof.
  intros F.
  assert (R0 : reachable clock video_caps (attached video_caps)).
  { apply (reach_step clock video_caps (initial video_caps) SetGui);
      [apply reach_initial|exact I]. }
  assert (S0 : synced (attached video_caps)).
  { left. split; [reflexivity|].
    destruct (initial_consistent video_caps) as [_ Rc _ _].
    intros r Hr. exact (Rc r Hr). }
  assert (G0 : gui (attached video_caps) = true) by reflexivity.
  revert R0 S0 G0. generalize (attached video_caps). intros w.
  revert w. induction os as [|o os IH]; intros w R S G; simpl; [exact S|].
  simpl in F. apply andb_prop in F as [Fo Fos].
  assert (A : admissible w o).
  { destruct o; simpl; auto. apply (reachable_keys _ _ _ _ R).
    simpl in Fo. apply existsb_exists in Fo as (x & Hx & Ex).
    apply String.eqb_eq in Ex. now subst. }
  destruct (run_op_synced clock video_caps o w R A G S) as [G' S'].
  apply IH; auto. now apply reach_step.
Qed.

Lemma display_in_sync_witness :
  synced (run (ticking 1)
            [Ingest "Road1" (just_cars 5) 5; Tick;
             Ingest "Road2" (just_cars 9) 9; Tick; Sweep]
            (attached two_roads)).
Proof.
  apply (display_in_sync (ticking 1) two_roads). reflexivity.
Defined.

(** ** What never goes away *)

Lemma run_op_records clock o w r :
  In r (keys (last_open_data w)) ->
  In r (keys (last_open_data (snd (run_op clock o w)))).
Proof.
  intros Hr. destruct o; simpl; try exact Hr.
  - unfold process_and_update_traffic, bind, modify.
    rewrite update_traffic_light_eq.
    assert (H0 : In r (keys (last_open_data (with_road_data_bound w true))))
      by exact Hr.
    revert H0. generalize (with_road_data_bound w true). intros w0 H0.
    destruct (road_data w0) as [rd|]; [|exact H0].
    destruct (any_emergency (road_counts_of rd)).
    + rewrite emergency_scan_eq.
      destruct (emergency_road (road_counts_of rd)); [|exact H0].
      eapply outcome_records; [apply uwl_outcome|exact H0].
    + destruct (max_count_road rd) as [m|]; [|exact H0].
      apply (for_each_preserves
               (fun w1 => In r (keys (last_open_data w1)))); [|exact H0].
      intros road w1 H1. destruct (String.eqb road m); [|exact H1].
      eapply outcome_records; [apply uwl_outcome|exact H1].
  - destruct (sweep_outcome clock w) as [L|(new & _ & O)].
    + destruct L as ((_ & _ & -> & _) & _). exact Hr.
    + eapply outcome_records; eauto.
Qed.

(** X16. No operation of the event loop adds or removes a road of
    [traffic_lights] or removes a record of [last_open_data]: after any
    sequence of frames, ticks and sweeps, raising or not, the lights have
    the keys they started with, in the same order, and every road that had
    a record still has one. *)
Theorem registry_stable clock os w :
  keys (traffic_lights (run clock os w)) = keys (traffic_lights w) /\
  forall r, In r (keys (last_open_data w)) ->
            In r (keys (last_open_data (run clock os w))).
Proof.
  revert w. induction os as [|o os IH]; intros w; simpl; [now split|].
  destruct (IH (snd (run_op clock o w))) as [Hk Hr]. split.
  - now rewrite Hk, run_op_keys.
  - intros r Hin. apply Hr. now apply run_op_records.
Qed.

(** X17. While some road's latest counts show an emergency vehicle, a tick
    opens no road but the one the scan stops at, and never takes the
    density branch: [last_open_time_em] keeps its value or becomes a clock
    reading of this call, and is not reset to 0.  Counts that are not
    refreshed therefore keep every other road from being opened by a
    tick. *)
Theorem emergency_blocks_other_roads clock w road :
  emergency_road (road_counts_of (feed w)) = Some road ->
  (forall r, r <> road ->
     light (snd (process_and_update_traffic clock w)) r = Some true ->
     light w r = Some true) /\
  (last_open_time_em (snd (process_and_update_traffic clock w))
     = last_open_time_em w \/
   exists i, (reads w <= i)%nat /\
     last_open_time_em (snd (process_and_update_traffic clock w)) = clock i).
Proof.
  intros Er. rewrite (emergency_tick_eq _ _ _ Er). split.
  - intros r Hne Ho.
    exact (outcome_opens _ _ _
             (uwl_outcome clock road true (with_road_data_bound w true))
             r Hne Ho).
  - destruct (uwl_em clock road true (with_road_data_bound w true))
      as [E|[E|[E _]]]; [now left|now right|discriminate].
Qed.

Lemma emergency_blocks_other_roads_witness :
  light (snd (process_and_update_traffic (ticking 1) three_emergencies))
        "Road2" <> Some true.
Proof.
  intros Ho.
  apply (proj1 (emergency_blocks_other_roads (ticking 1) three_emergencies
                  "Road1" eq_refl) "Road2") in Ho; discriminate.
Defined.

(** ** The pulse *)

(** X18. From a reachable state the body of [update_traffic_system] returns
    normally exactly when [road_data] holds a snapshot: with an empty
    [road_data] the tick raises [ValueError], and the call ends there,
    before the sweep is run or the clock is read. *)
Theorem pulse_behaviour clock video_caps w :
  reachable clock video_caps w ->
  (feed w = [] ->
   update_traffic_system clock w
   = (Exc ValueError, with_road_data_bound w true)) /\
  (feed w <> [] ->
   exists w', update_traffic_system clock w = (Val tt, w')).
Proof.
  intros R. pose proof (reachable_known _ _ _ R) as K.
  unfold update_traffic_system. split.
  - intros E. apply bind_Exc.
    rewrite tick_eq by apply (feed_nodup _ K). cbv zeta. now rewrite E.
  - intros Hne.
    assert (Ht : fst (process_and_update_traffic clock w) = Val tt).
    { rewrite tick_eq by apply (feed_nodup _ K). cbv zeta.
      destruct (emergency_road (road_counts_of (feed w)));
        [apply uwl_returns|].
      destruct (max_count_road_Some (feed w) Hne) as [m ->].
      apply uwl_returns. }
    pose proof (reach_step clock video_caps w Tick R I) as R1.
    simpl in R1.
    destruct (process_and_update_traffic clock w) as [res w1] eqn:Et.
    simpl in Ht, R1. subst res.
    destruct (sweep_never_raises clock video_caps w1 R1) as [w' Hs].
    exists w'. unfold bind. now rewrite Et.
Qed.

Lemma pulse_behaviour_witness :
  update_traffic_system (ticking 1) (initial two_roads)
  = (Exc ValueError, with_road_data_bound (initial two_roads) true).
Proof.
  apply (proj1 (pulse_behaviour (ticking 1) two_roads (initial two_roads)
                  (reach_initial _ _))).
  reflexivity.
Defined.

(** ** The counts of a frame *)

Lemma zip3_length {A B C} (xs : list A) (ys : list B) (zs : list C) :
  (List.length (zip3 xs ys zs) <= List.length xs)%nat.
Proof.
  revert ys zs. induction xs as [|x xs IH]; intros ys zs; simpl; [lia|].
  destruct ys as [|y ys]; simpl; [lia|].
  destruct zs as [|z zs]; simpl; [lia|]. specialize (IH ys zs). lia.
Qed.

Lemma count_fold_bounds l acc :
  0 <= ambulance acc -> 0 <= firefighter acc -> 0 <= police acc ->
  0 <= traffic acc -> 0 <= car acc ->
  let c := fold_left count_track l acc in
  0 <= ambulance c /\ 0 <= firefighter c /\ 0 <= police c /\
  0 <= traffic c /\ 0 <= car c /\
  ambulance c + firefighter c + police c + car c
    <= ambulance acc + firefighter acc + police acc + car acc
       + Z.of_nat (List.length l) /\
  sum_values c <= sum_values acc + 13 * Z.of_nat (List.length l).
Proof.
  revert acc. induction l as [|[[id cls] area] l IH];
    intros acc Ha Hf Hp Ht Hc; cbn [fold_left List.length].
  - cbv zeta. unfold sum_values. repeat split; lia.
  - cbv zeta.
    assert (Hstep :
      let c1 := count_track acc (id, cls, area) in
      0 <= ambulance c1 /\ 0 <= firefighter c1 /\ 0 <= police c1 /\
      0 <= traffic c1 /\ 0 <= car c1 /\
      ambulance c1 + firefighter c1 + police c1 + car c1
        <= ambulance acc + firefighter acc + police acc + car acc + 1 /\
      sum_values c1 <= sum_values acc + 13).
    { unfold count_track, sum_values.
      destruct (cls =? 0); [simpl; repeat split; lia|].
      destruct (cls =? 1); [simpl; repeat split; lia|].
      destruct (cls =? 4); [simpl; repeat split; lia|].
      destruct (cls =? 3); [simpl; repeat split; lia|].
      destruct (cls =? 2); [|simpl; repeat split; lia].
      destruct (negb _); simpl; repeat split; lia. }
    cbv zeta in Hstep.
    destruct Hstep as (Ha1 & Hf1 & Hp1 & Ht1 & Hc1 & Hn1 & Hs1).
    destruct (IH (count_track acc (id, cls, area)) Ha1 Hf1 Hp1 Ht1 Hc1)
      as (Ha2 & Hf2 & Hp2 & Ht2 & Hc2 & Hn2 & Hs2).
    repeat split; try assumption; lia.
Qed.

(** X19. The counts [process_video_frame] stores for a frame are never
    negative; the vehicles counted (ambulances, firefighters, police cars
    and cars) are no more than the tracks of the frame, and the sum of all
    five counts, the demand of the road, is at most 13 times the number of
    tracks. *)
Theorem count_tracks_bounds track_ids track_clss areas :
  let c := count_tracks track_ids track_clss areas in
  0 <= ambulance c /\ 0 <= firefighter c /\ 0 <= police c /\
  0 <= traffic c /\ 0 <= car c /\
  ambulance c + firefighter c + police c + car c
    <= Z.of_nat (List.length track_ids) /\
  sum_values c <= 13 * Z.of_nat (List.length track_ids).
Proof.
  cbv zeta. unfold count_tracks.
  pose proof (zip3_length track_ids track_clss areas) as Hlen.
  destruct (count_fold_bounds (zip3 track_ids track_clss areas)
              (mkCounts 0 0 0 0 0)) as (Ha & Hf & Hp & Ht & Hc & Hn & Hs);
    cbn [ambulance firefighter police traffic car]; try lia.
  unfold sum_values in *.
  cbn [ambulance firefighter police traffic car] in *.
  repeat split; try assumption; lia.
Qed.

Lemma count_fold_emergency l acc :
  0 <= ambulance acc -> 0 <= firefighter acc -> 0 <= police acc ->
  has_emergency (fold_left count_track l acc)
  = has_emergency acc
    || existsb (fun t => emergency_class (snd (fst t))) l.
Proof.
  revert acc. induction l as [|[[id cls] area] l IH]; intros acc Ha Hf Hp;
    cbn [fold_left existsb].
  - now rewrite orb_false_r.
  - assert (Hstep :
      let c1 := count_track acc (id, cls, area) in
      0 <= ambulance c1 /\ 0 <= firefighter c1 /\ 0 <= police c1 /\
      has_emergency c1 = has_emergency acc || emergency_class cls).
    { unfold count_track, has_emergency, emergency_class.
      destruct (cls =? 0); [simpl; repeat split; lia|].
      destruct (cls =? 1); [simpl; repeat split; lia|].
      destruct (cls =? 4); [simpl; repeat split; lia|].
      destruct (cls =? 3); [simpl; repeat split; lia|].
      destruct (cls =? 2); [|simpl; repeat split; lia].
      destruct (negb _); simpl; repeat split; lia. }
    cbv zeta in Hstep. destruct Hstep as (Ha1 & Hf1 & Hp1 & He1).
    rewrite (IH _ Ha1 Hf1 Hp1), He1. cbn [fst snd]. now rewrite orb_assoc.
Qed.

Lemma count_tracks_emergency_aux track_ids track_clss areas :
  has_emergency (count_tracks track_ids track_clss areas)
  = existsb (fun t => emergency_class (snd (fst t)))
            (zip3 track_ids track_clss areas).
Proof.
  unfold count_tracks. rewrite count_fold_emergency; simpl; try lia.
  reflexivity.
Qed.

(** X20. The counts stored for a frame show an emergency (an ambulance,
    firefighter or police count above zero, the test of the tick) exactly
    when one of the tracks the loop pairs up has class 0, 1 or 4: cars, jams
    and unknown classes never trigger the emergency branch. *)
Theorem count_tracks_emergency track_ids track_clss areas :
  has_emergency (count_tracks track_ids track_clss areas)
  = existsb (fun t => emergency_class (snd (fst t)))
            (zip3 track_ids track_clss areas).
Proof. apply count_tracks_emergency_aux. Qed.

Lemma emergency_road_set (d : dict RoadDatum) k v :
  emergency_road (map (fun kv => (fst kv, counts (snd kv))) d) = None ->
  has_emergency (counts v) = true ->
  emergency_road (map (fun kv => (fst kv, counts (snd kv))) (set d k v))
  = Some k.
Proof.
  intros Hnone Hv. induction d as [|[k0 v0] d IH]; simpl in *.
  - now rewrite Hv.
  - destruct (has_emergency (counts v0)) eqn:E0; [discriminate|].
    destruct (String.eqb k0 k); simpl.
    + now rewrite Hv.
    + rewrite E0. now apply IH.
Qed.

(** X21. A frame and the tick that follows it: in a reachable state where
    no road's counts show an emergency, a frame of a closed road in which
    some track has class 0, 1 or 4 makes the next tick open that road at
    once and leave every other road closed, whatever the timers say. *)
Theorem frame_with_emergency_preempts clock video_caps w road
  track_ids track_clss areas :
  reachable clock video_caps w ->
  emergency_road (road_counts_of (feed w)) = None ->
  light w road = Some false ->
  existsb (fun t => emergency_class (snd (fst t)))
          (zip3 track_ids track_clss areas) = true ->
  exists w',
    run_op clock Tick
      (snd (run_op clock (ingest_frame road track_ids track_clss areas) w))
    = (Val tt, w') /\
    light w' road = Some true /\
    (forall r, r <> road -> light w' r <> Some true).
Proof.
  intros R Hnone Hl Hcls.
  assert (A : admissible w (ingest_frame road track_ids track_clss areas)).
  { simpl. eapply get_In_keys. exact Hl. }
  pose proof (reach_step clock video_caps w _ R A) as R1.
  set (w1 := snd (run_op clock
                    (ingest_frame road track_ids track_clss areas) w)) in *.
  pose proof (reachable_known _ _ _ R) as K.
  pose proof (reachable_known _ _ _ R1) as K1.
  assert (Er : emergency_road (road_counts_of (feed w1)) = Some road).
  { rewrite road_counts_of_map by apply (feed_nodup _ K1).
    apply emergency_road_set.
    - now rewrite <- road_counts_of_map by apply (feed_nodup _ K).
    - simpl. now rewrite count_tracks_emergency_aux. }
  destruct (tick_preempts clock video_caps w1 road R1 Er Hl)
    as (w' & Ht & Ho & Hothers & _).
  exists w'. repeat split; assumption.
Qed.

Lemma frame_with_emergency_preempts_witness :
  exists w',
    run_op (ticking 1) Tick
      (snd (run_op (ticking 1)
              (ingest_frame "Road2" [7; 8] [3; 0]
                 [QArith_base.inject_Z 900; QArith_base.inject_Z 8000])
              first_frame))
    = (Val tt, w') /\
    light w' "Road2" = Some true /\
    (forall r, r <> "Road2" -> light w' r <> Some true).
Proof.
  apply (frame_with_emergency_preempts (ticking 1) two_roads first_frame
           "Road2" [7; 8] [3; 0]
           [QArith_base.inject_Z 900; QArith_base.inject_Z 8000]).
  - apply reachable_ops; [apply reach_initial|reflexivity].
  - reflexivity.
  - reflexivity.
  - reflexivity.
Defined.
